(** * Mediachain node (aleph): directory client, peer resolution and the
      query-expansion pipeline of [MediachainNode]

    A shallow embedding of the node's protocol layer.  Promises are modelled
    as a writer/error monad over the trace of transport actions the call
    performs, pull-streams as the finite trace a source delivers when it is
    drained, the [paramap] stage of the expansion pipeline as the state
    machine of the pull-paramap package under the events that drive it, and
    decoded protobuf messages as dynamically typed values. *)

From Stdlib Require Import NArith List Ascii.
From stdpp Require Import base option list strings gmap.

Local Open Scope string_scope.
Local Open Scope list_scope.

(** ** Values *)

(** Decoded messages and plain JS objects. *)
#[local] Set Warnings "-register-all".
Inductive JsVal : Type :=
| JUndefined
| JNull
| JBool (b : bool)
| JStr (s : string)
| JArr (xs : list JsVal)
| JObj (fields : list (string * JsVal)).

(** [o.k]: a missing property reads as [undefined]. *)
Fixpoint assoc_get (k : string) (fields : list (string * JsVal)) : JsVal :=
  match fields with
  | [] => JUndefined
  | (k', v) :: rest => if String.eqb k k' then v else assoc_get k rest
  end.

Definition get_field (k : string) (o : JsVal) : JsVal :=
  match o with
  | JObj fields => assoc_get k fields
  | _ => JUndefined
  end.

(** [v == null] holds of [null] and of [undefined] only. *)
Definition is_nullish (v : JsVal) : bool :=
  match v with
  | JUndefined | JNull => true
  | _ => false
  end.

Record Error : Type := mkError { message : string }.

Record PeerId : Type := mkPeerId { toB58String : string }.

Record PeerInfo : Type := mkPeerInfo { id : PeerId; multiaddrs : list string }.

(** Modelled from the spec: the [PROTOCOLS] table of the constants module,
    which is not part of the sources at hand; one constructor per protocol
    identifier of the interface table. *)
Inductive protocol : Type :=
| node_ping | node_id | node_query | node_data
| dir_register | dir_lookup.

#[global] Instance protocol_eq_dec : EqDecision protocol.
Proof. solve_decision. Defined.

(** ** Pull-streams *)

(** A source, seen as what a consumer that keeps pulling receives: the
    items in order, then either the normal end or a terminal error. *)
Record Source (A : Type) : Type := mkSource {
  items : list A;
  ended : option Error
}.
Arguments mkSource {A} _ _.
Arguments items {A} _.
Arguments ended {A} _.

(** What one pull of the consumer yields. *)
Inductive Pulled (A : Type) : Type :=
| Data (a : A)
| End
| Failed (e : Error).
Arguments Data {A} _.
Arguments End {A}.
Arguments Failed {A} _.

Definition pull_values {A} (xs : list A) : Source A := mkSource xs None.
Definition pull_once {A} (x : A) : Source A := mkSource [x] None.
Definition pull_map {A B} (f : A → B) (s : Source A) : Source B :=
  mkSource (f <$> items s) (ended s).

(** ** Transport *)

(** A dialed stream, between the encoder and the decoder bound to it: the
    decoded messages the remote side answers to the messages written, and
    whether the stream is still open [t] milliseconds after the dial. *)
Record Connection : Type := mkConnection {
  conn_reply : list JsVal → Source JsVal;
  conn_open : N → bool
}.

(** [pull-abortable] through-stream handed out by [p2p.newAbortable()]. *)
Inductive Abortable : Type := mkAbortable.

(** Protobuf schemas the codec stages are bound to. *)
Inductive schema : Type :=
| RegisterPeer | LookupPeerRequest | LookupPeerResponse
| Ping | Pong | NodeInfoRequest | NodeInfo
| QueryRequest | QueryResult | DataRequest | DataResult.

(** The stages of a pipeline handed to [pull(...)]. *)
Inductive stage : Type :=
| StRepeatedly (value : JsVal) (interval : N)
| StAbortable (a : Abortable)
| StEncode (s : schema)
| StConn (c : Connection)
| StOnEnd (log_line : string).

(** Actions on the transport adapter, in the order they are performed. *)
Inductive event : Type :=
| EvPeerBookGet (b58 : string)
| EvNewAbortable
| EvDial (peer : PeerInfo) (proto : protocol)
| EvPull (stages : list stage).

Record P2PNode : Type := mkP2PNode {
  peerInfo : PeerInfo;
  peerBook : gmap string PeerInfo;
  network : PeerInfo → protocol → Error + Connection
}.

Record MediachainNode : Type := mkNode {
  p2p : P2PNode;
  directory : option PeerInfo;
  infoMessage : string
}.

(** ** Promises *)

Inductive outcome (A : Type) : Type :=
| Resolved (a : A)
| Rejected (e : Error).
Arguments Resolved {A} _.
Arguments Rejected {A} _.

(** A promise: the transport actions performed until it settles, and how
    it settles. *)
Definition Promise (A : Type) : Type := (list event * outcome A)%type.

Definition Promise_resolve {A} (a : A) : Promise A := ([], Resolved a).
Definition Promise_reject {A} (e : Error) : Promise A := ([], Rejected e).
Definition tell (ev : event) : Promise unit := ([ev], Resolved tt).

(** [p.then(f)] *)
Definition Promise_then {A B} (f : A → Promise B) (p : Promise A) : Promise B :=
  match p with
  | (l, Resolved a) => let '(l', r) := f a in ((l ++ l')%list, r)
  | (l, Rejected e) => (l, Rejected e)
  end.

#[global] Instance Promise_mret : MRet Promise := @Promise_resolve.
#[global] Instance Promise_mbind : MBind Promise := @Promise_then.

Definition trace {A} (p : Promise A) : list event := p.1.
Definition settled {A} (p : Promise A) : outcome A := p.2.

Definition is_dial (ev : event) : bool :=
  match ev with EvDial _ _ => true | _ => false end.

Definition is_dial_on (proto : protocol) (ev : event) : bool :=
  match ev with
  | EvDial _ p => bool_decide (p = proto)
  | _ => false
  end.

(** Number of dials a call performs. *)
Definition dials {A} (p : Promise A) : nat := length (List.filter is_dial (trace p)).
Definition dials_on {A} (proto : protocol) (p : Promise A) : nat :=
  length (List.filter (is_dial_on proto) (trace p)).

(** ** The [paramap] stage *)

(** A call of the mapper handed to [paramap]: whether the mapper calls back
    before it returns, and the call itself. *)
Record Call (B : Type) : Type := mkCall {
  call_sync : bool;
  call_promise : Promise B
}.
Arguments mkCall {B} _ _.
Arguments call_sync {B} _.
Arguments call_promise {B} _.

(** A [paramap] stage before the consumer has pulled: the mapper call each
    upstream element will get, how upstream terminates, and the width the
    stage was given ([None] when [paramap] is called with the mapper
    alone). *)
Record Through (B : Type) : Type := mkThrough {
  pending : list (Call B);
  upstream_end : option Error;
  width : option nat
}.
Arguments mkThrough {B} _ _ _.
Arguments pending {B} _.
Arguments upstream_end {B} _.
Arguments width {B} _.

(** [paramap(fn, width)] of the pull-paramap package, in its default
    in-order mode. *)
Definition paramap {A B} (fn : A → Call B) (width : option nat) (s : Source A)
  : Through B :=
  mkThrough (fn <$> items s) (ended s) width.

(** What can happen to a running [paramap] stage: the consumer pulls,
    upstream answers the outstanding read (with its next element or its
    end), the mapper call for element [k] calls back.  A consumer that
    aborts is left out: neither collector of the node does. *)
Inductive ParaEvent : Type :=
| Pull
| Arrive
| Complete (k : nat).

(** The variables of the stage: [i] elements read and handed to the
    mapper, [j] results handed to the consumer, [seen] the results waiting
    for their turn, [waiting] whether the consumer's callback is held,
    [error] the last error a mapper call reported; beside them the calls
    in flight, what the consumer was answered and the transport actions of
    the calls started (the calls run side by side: each call's actions
    are listed where it is started, the order among the actions of
    different calls is not recorded). *)
Record ParaState (B : Type) : Type := mkPara {
  ps_upstream : list (Call B);
  ps_i : nat;
  ps_j : nat;
  ps_last : nat;
  ps_started : bool;
  ps_reading : bool;
  ps_ended : bool;
  ps_waiting : bool;
  ps_error : option Error;
  ps_seen : gmap nat B;
  ps_inflight : gset nat;
  ps_answers : list (Pulled B);
  ps_log : list event
}.
Arguments mkPara {B} _ _ _ _ _ _ _ _ _ _ _ _ _.
Arguments ps_upstream {B} _.
Arguments ps_i {B} _.
Arguments ps_j {B} _.
Arguments ps_last {B} _.
Arguments ps_started {B} _.
Arguments ps_reading {B} _.
Arguments ps_ended {B} _.
Arguments ps_waiting {B} _.
Arguments ps_error {B} _.
Arguments ps_seen {B} _.
Arguments ps_inflight {B} _.
Arguments ps_answers {B} _.
Arguments ps_log {B} _.

Section ParaMap.

Context {B : Type}.

(** The stage, and whether its consumer pulls again from inside its
    callback as soon as it is handed a result ([pull.collect] does). *)
Variable t : Through B.
Variable greedy : bool.

Definition para_init : ParaState B :=
  mkPara (pending t) 0 0 0 false false false false None ∅ ∅ [] [].

(** How the stream ends when upstream has ended and every result is
    handed over. *)
Definition para_terminal : Pulled B :=
  match upstream_end t with
  | Some err => Failed err
  | None => End
  end.

(** [width] as a condition: set and not zero. *)
Definition width_set : bool :=
  match width t with
  | Some w => negb (w =? 0)%nat
  | None => false
  end.

(** [width && (i - width >= j)] *)
Definition width_reached (st : ParaState B) : bool :=
  match width t with
  | Some w => negb (w =? 0)%nat && (ps_j st + w <=? ps_i st)%nat
  | None => false
  end.

(** [_cb = null; cb(answer)] *)
Definition para_answer (a : Pulled B) (st : ParaState B) : ParaState B :=
  mkPara (ps_upstream st) (ps_i st) (ps_j st) (ps_last st) (ps_started st)
         (ps_reading st) (ps_ended st) false (ps_error st) (ps_seen st)
         (ps_inflight st) (ps_answers st ++ [a]) (ps_log st).

(** [_cb = null; data = seen[j]; delete seen[j]; j++; cb(null, data)] *)
Definition para_hand_over (data : B) (st : ParaState B) : ParaState B :=
  mkPara (ps_upstream st) (ps_i st) (S (ps_j st)) (ps_last st) (ps_started st)
         (ps_reading st) (ps_ended st) false (ps_error st)
         (delete (ps_j st) (ps_seen st))
         (ps_inflight st) (ps_answers st ++ [Data data]) (ps_log st).

(** [_cb = cb] *)
Definition para_wait (st : ParaState B) : ParaState B :=
  mkPara (ps_upstream st) (ps_i st) (ps_j st) (ps_last st) (ps_started st)
         (ps_reading st) (ps_ended st) true (ps_error st) (ps_seen st)
         (ps_inflight st) (ps_answers st) (ps_log st).

Definition para_set_started (st : ParaState B) : ParaState B :=
  mkPara (ps_upstream st) (ps_i st) (ps_j st) (ps_last st) true
         (ps_reading st) (ps_ended st) (ps_waiting st) (ps_error st) (ps_seen st)
         (ps_inflight st) (ps_answers st) (ps_log st).

Definition para_set_reading (b : bool) (st : ParaState B) : ParaState B :=
  mkPara (ps_upstream st) (ps_i st) (ps_j st) (ps_last st) (ps_started st)
         b (ps_ended st) (ps_waiting st) (ps_error st) (ps_seen st)
         (ps_inflight st) (ps_answers st) (ps_log st).

(** [last = i; ended = end] *)
Definition para_set_ended (st : ParaState B) : ParaState B :=
  mkPara (ps_upstream st) (ps_i st) (ps_j st) (ps_i st) (ps_started st)
         (ps_reading st) true (ps_waiting st) (ps_error st) (ps_seen st)
         (ps_inflight st) (ps_answers st) (ps_log st).

(** [k = i++] and the call of the mapper for the element read: its
    transport actions are counted from when it is started. *)
Definition para_take (c : Call B) (rest : list (Call B)) (st : ParaState B)
  : ParaState B :=
  mkPara rest (S (ps_i st)) (ps_j st) (ps_last st) (ps_started st)
         (ps_reading st) (ps_ended st) (ps_waiting st) (ps_error st) (ps_seen st)
         (ps_inflight st) (ps_answers st) (ps_log st ++ trace (call_promise c)).

Definition para_set_inflight (calls : gset nat) (st : ParaState B) : ParaState B :=
  mkPara (ps_upstream st) (ps_i st) (ps_j st) (ps_last st) (ps_started st)
         (ps_reading st) (ps_ended st) (ps_waiting st) (ps_error st) (ps_seen st)
         calls (ps_answers st) (ps_log st).

(** [seen[k] = data; if (err) error = err].  With an error the mapper
    passes no data, and [seen[k]] is never read: from then on [drain]
    answers with the error before it looks at [seen]. *)
Definition para_record (k : nat) (r : outcome B) (st : ParaState B) : ParaState B :=
  mkPara (ps_upstream st) (ps_i st) (ps_j st) (ps_last st) (ps_started st)
         (ps_reading st) (ps_ended st) (ps_waiting st)
         (match r with Rejected err => Some err | Resolved _ => ps_error st end)
         (match r with Resolved data => <[k := data]> (ps_seen st)
                     | Rejected _ => ps_seen st end)
         (ps_inflight st) (ps_answers st) (ps_log st).

(** [start()], given [drain]: nothing is read once upstream has ended,
    while a read is outstanding, or while the width is reached. *)
Definition para_start (drain : ParaState B → ParaState B) (st : ParaState B)
  : ParaState B :=
  let st := para_set_started st in
  if ps_ended st then drain st
  else if ps_reading st || width_reached st then st
  else para_set_reading true st.

(** [drain()]: with the consumer's callback held, an error goes first,
    then the result whose turn it is, then the end once everything read
    is handed over.  A greedy consumer pulls again from inside its
    callback; [fuel] bounds that nesting.  (Handed a result from inside
    its own read call, [pull.collect] pulls again right after that call
    has returned instead: the stage is in the same state afterwards, [start]
    reading on exactly when the width allows it for the last [j].) *)
Fixpoint para_drain (fuel : nat) (st : ParaState B) : ParaState B :=
  match fuel with
  | O => st
  | S fuel' =>
      if negb (ps_waiting st) then st
      else
        match ps_error st with
        | Some err => para_answer (Failed err) st
        | None =>
            match ps_seen st !! ps_j st with
            | Some data =>
                let st := para_hand_over data st in
                let st := if greedy then para_drain fuel' (para_wait st) else st in
                if width_set then para_start (para_drain fuel') st else st
            | None =>
                if ps_ended st && (ps_last st <=? ps_j st)%nat
                then para_answer para_terminal st
                else st
            end
        end
  end.

(** [drain()] with the nesting it can need: one more than the results
    waiting. *)
Definition para_drain_all (st : ParaState B) : ParaState B :=
  para_drain (S (S (size (ps_seen st)))) st.

(** The callback of the mapper call for element [k]. *)
Definition para_complete (k : nat) (r : outcome B) (st : ParaState B) : ParaState B :=
  para_drain_all (para_record k r st).

Definition para_step (ev : ParaEvent) (st : ParaState B) : ParaState B :=
  match ev with
  | Pull =>
      let st := para_wait st in
      let st := if ps_started st then st else para_start para_drain_all st in
      para_drain_all st
  | Arrive =>
      if negb (ps_reading st) then st
      else
        let st := para_set_reading false st in
        match ps_upstream st with
        | [] => para_drain_all (para_set_ended st)
        | c :: rest =>
            let k := ps_i st in
            let st := para_take c rest st in
            let st :=
              if call_sync c then para_complete k (settled (call_promise c)) st
              else para_set_inflight ({[k]} ∪ ps_inflight st) st in
            if ps_ended st then st else para_start para_drain_all st
        end
  | Complete k =>
      if bool_decide (k ∈ ps_inflight st) then
        match pending t !! k with
        | Some c =>
            para_complete k (settled (call_promise c))
              (para_set_inflight (ps_inflight st ∖ {[k]}) st)
        | None => st
        end
      else st
  end.

Definition para_run (sched : list ParaEvent) (st : ParaState B) : ParaState B :=
  foldl (λ st ev, para_step ev st) st sched.

(** The results the consumer was handed, in the order it got them. *)
Definition para_delivered (st : ParaState B) : list B :=
  omap (λ a, match a with Data b => Some b | _ => None end) (ps_answers st).

End ParaMap.

(** [pull.collect] on the stage: the consumer pulls at once and again from
    inside each callback.  After the events of [sched], upstream delivers
    what it still has and the calls in flight call back, so that the
    stream terminates; the promise settles with the results handed over
    before the end, or with the error the stream ended with.  (A stream
    that had not terminated by then would leave the promise pending, which
    is rendered as a rejection of its own; a stage without width never
    comes to that.) *)
Definition collect_schedule {B} (t : Through B) (sched : list ParaEvent)
  : list ParaEvent :=
  Pull :: sched ++ replicate (S (length (pending t))) Arrive
       ++ (Complete <$> seq 0 (length (pending t))).

Fixpoint collect_outcome {B} (got : list B) (answers : list (Pulled B))
  : option (outcome (list B)) :=
  match answers with
  | [] => None
  | Data b :: rest => collect_outcome (got ++ [b]) rest
  | End :: _ => Some (Resolved got)
  | Failed err :: _ => Some (Rejected err)
  end.

Definition pull_collect_through {B} (sched : list ParaEvent) (t : Through B)
  : Promise (list B) :=
  let st := para_run t true (collect_schedule t sched) (para_init t) in
  (ps_log st,
   default (Rejected (mkError "stream not terminated"))
           (collect_outcome [] (ps_answers st))).

(** The errors the mapper calls of a stage report. *)
Definition mapper_error {B} (t : Through B) (err : Error) : Prop :=
  ∃ k c, pending t !! k = Some c ∧ settled (call_promise c) = Rejected err.

(** What holds of a stage whatever happens to it: it has read a prefix of
    the upstream elements; the results waiting and the calls in flight are
    of elements read and not yet handed over; the consumer was handed, in
    input order, the results of the first [j] elements, and after them
    only ends: an error of a mapper call, or the end of upstream once all
    results were handed over. *)
Record para_safe {B} (t : Through B) (st : ParaState B) : Prop := mkSafe {
  safe_upstream : ps_upstream st = drop (ps_i st) (pending t);
  safe_i : (ps_i st ≤ length (pending t))%nat;
  safe_j : (ps_j st ≤ ps_i st)%nat;
  safe_seen : ∀ k b, ps_seen st !! k = Some b →
      (ps_j st ≤ k < ps_i st)%nat
      ∧ ∃ c, pending t !! k = Some c ∧ settled (call_promise c) = Resolved b;
  safe_inflight : ∀ k, k ∈ ps_inflight st →
      (ps_j st ≤ k < ps_i st)%nat ∧ ps_seen st !! k = None;
  safe_error : ∀ err, ps_error st = Some err → mapper_error t err;
  safe_ended : ps_ended st = true →
      ps_last st = length (pending t) ∧ ps_i st = length (pending t);
  safe_answers : ∃ ds ts,
      ps_answers st = (Data <$> ds) ++ ts
      ∧ Forall2 (λ c y, settled (call_promise c) = Resolved y)
                (take (ps_j st) (pending t)) ds
      ∧ Forall (λ a, (∃ err, a = Failed err ∧ mapper_error t err
                             ∧ ps_error st ≠ None)
                     ∨ (a = para_terminal t ∧ ps_j st = length (pending t))) ts;
  safe_log : ps_log st
             = concat ((λ c, trace (call_promise c)) <$> take (ps_i st) (pending t))
}.

(** An answer that ends the stream. *)
Definition is_final {B} (a : Pulled B) : bool :=
  match a with
  | Data _ => false
  | _ => true
  end.

(** Every call started is handed over, waiting for its turn or in
    flight, unless an error is recorded. *)
Definition calls_accounted {B} (st : ParaState B) : Prop :=
  ∀ k, (k < ps_i st)%nat →
    (k < ps_j st)%nat ∨ is_Some (ps_seen st !! k) ∨ k ∈ ps_inflight st
    ∨ ps_error st ≠ None.

(** The consumer's callback is held only while nothing can be handed to
    it. *)
Definition callback_held {B} (st : ParaState B) : Prop :=
  ps_waiting st = true →
  ps_error st = None ∧ ps_seen st !! ps_j st = None
  ∧ (ps_ended st = true → (ps_j st < ps_last st)%nat).

(** A consumer that pulls again at once is without a held callback only
    after an answer that ends the stream. *)
Definition callback_answered {B} (st : ParaState B) : Prop :=
  ps_waiting st = false → existsb is_final (ps_answers st) = true.

(** What holds of a started stage without width under a consumer that
    pulls again at once: beside the above, a read of upstream is
    outstanding until upstream has ended. *)
Record para_live {B} (st : ParaState B) : Prop := mkLive {
  live_started : ps_started st = true;
  live_reading : ps_ended st = false → ps_reading st = true;
  live_calls : calls_accounted st;
  live_waiting : callback_held st;
  live_answered : callback_answered st
}.

(** A started stage without width has a read of upstream outstanding
    until upstream has ended, whatever the number of calls in flight. *)
Definition para_reading {B} (st : ParaState B) : Prop :=
  ps_started st = true ∧ (ps_ended st = false → ps_reading st = true).

(** A stage with width [w] reads on only while fewer than [w] of the
    elements read are not yet handed over. *)
Definition para_window {B} (w : nat) (st : ParaState B) : Prop :=
  (ps_i st + (if ps_reading st then 1 else 0) ≤ ps_j st + w)%nat.

(** ** Base-58 strings *)

(** [decode] of the bs58 package. *)
Module Base58.

Definition ALPHABET : string :=
  "123456789ABCDEFGHJKLMNPQRSTUVWXYZabcdefghijkmnopqrstuvwxyz".

Fixpoint index_in (c : ascii) (alphabet : string) (i : N) : option N :=
  match alphabet with
  | EmptyString => None
  | String c' rest => if Ascii.eqb c c' then Some i else index_in c rest (i + 1)
  end.

(** [ALPHABET_MAP[c]]; [None] is [undefined]. *)
Definition ALPHABET_MAP (c : ascii) : option N := index_in c ALPHABET 0.

(** [while (carry > 0) { bytes.push(carry & 0xff); carry >>= 8 }] *)
Fixpoint push_carry (fuel : nat) (carry : N) : list N :=
  match fuel with
  | O => []
  | S fuel' =>
      if (carry =? 0)%N then []
      else N.land carry 255 :: push_carry fuel' (N.shiftr carry 8)
  end.

(** The bytes, least significant first, times 58 plus [carry]. *)
Fixpoint mul_add (bytes : list N) (carry : N) : list N :=
  match bytes with
  | [] => push_carry (N.to_nat carry) carry
  | b :: rest =>
      let carry := (carry + b * 58)%N in
      N.land carry 255 :: mul_add rest (N.shiftr carry 8)
  end.

(** The loop over the characters: a character outside the alphabet ends
    it with an exception. *)
Fixpoint decode_loop (s : string) (bytes : list N) : Error + list N :=
  match s with
  | EmptyString => inr bytes
  | String c rest =>
      match ALPHABET_MAP c with
      | None => inl (mkError "Non-base58 character")
      | Some value => decode_loop rest (mul_add bytes value)
      end
  end.

(** The leading ['1']s, the last character of the string left out: each
    stands for a zero byte. *)
Fixpoint leading_zeros (s : string) : nat :=
  match s with
  | String c (String _ _ as rest) =>
      if Ascii.eqb c "1" then S (leading_zeros rest) else O
  | _ => O
  end.

Definition decode (s : string) : Error + list N :=
  match s with
  | EmptyString => inr []
  | _ =>
      match decode_loop s [0%N] with
      | inl err => inl err
      | inr bytes => inr (rev (bytes ++ replicate (leading_zeros s) 0%N))
      end
  end.

(** Whether every character of [s] is of the alphabet. *)
Fixpoint all_in_alphabet (s : string) : bool :=
  match s with
  | EmptyString => true
  | String c rest =>
      match ALPHABET_MAP c with
      | Some _ => all_in_alphabet rest
      | None => false
      end
  end.

End Base58.

Module Multihash.

(** [Multihash.fromB58String] of the multihashes package: the bytes the
    string decodes to in base 58.  It does not look at the bytes. *)
Definition fromB58String (hash : string) : Error + list N := Base58.decode hash.

(** The layout of a multihash, as the claim about [lookup] understands a
    well-formed one: the code of a hash function, the length of the
    digest, and a digest of that length, which is not empty.  Every code
    is taken for the code of a hash function. *)
Definition well_formed (bytes : list N) : bool :=
  match bytes with
  | code :: len :: digest => (0 <? len)%N && (N.of_nat (length digest) =? len)%N
  | _ => false
  end.

End Multihash.

(** ** Query results and their object references *)

Module Expansion.

(** A place inside a value: the properties and indices that lead to it. *)
Inductive Step : Type :=
| Field (k : string)
| Index (n : nat).

Fixpoint value_at (path : list Step) (v : JsVal) : JsVal :=
  match path with
  | [] => v
  | Field k :: rest => value_at rest (get_field k v)
  | Index n :: rest =>
      match v with
      | JArr xs => value_at rest (nth n xs JUndefined)
      | _ => JUndefined
      end
  end.

(** Modelled from the spec: the data object fetched for an object id.
    The helpers of the util module are not part of the sources at hand; a
    fetched payload is a data object, which carries its id under [key]. *)
Definition payload_for (id : string) (dataObjects : list JsVal) : option JsVal :=
  List.find (λ o, match get_field "key" o with
                  | JStr k => String.eqb k id
                  | _ => false
                  end) dataObjects.

(** Modelled from the spec: [objectIdsForQueryResult] of the util module,
    which is not part of the sources at hand.  A query-result value
    references an object id where a property [object] holds a string, the
    id; object ids are opaque strings. *)
Fixpoint objectIdsForQueryResult (result : JsVal) : list string :=
  match result with
  | JArr xs => flat_map objectIdsForQueryResult xs
  | JObj fields =>
      flat_map (λ '(k, x), match x with
                           | JStr id => if String.eqb k "object" then [id] else []
                           | _ => objectIdsForQueryResult x
                           end) fields
  | _ => []
  end.

(** Modelled from the spec: [expandQueryResult] of the util module, which
    is not part of the sources at hand.  Every referenced object id is
    replaced in place by its fetched payload; the value is unchanged where
    it has no reference, and an id for which nothing was fetched stays. *)
Fixpoint expandQueryResult (result : JsVal) (dataObjects : list JsVal) : JsVal :=
  match result with
  | JArr xs => JArr (map (λ x, expandQueryResult x dataObjects) xs)
  | JObj fields =>
      JObj (map (λ '(k, x), (k,
                        match x with
                        | JStr id =>
                            if String.eqb k "object"
                            then default x (payload_for id dataObjects)
                            else x
                        | _ => expandQueryResult x dataObjects
                        end)) fields)
  | _ => result
  end.

End Expansion.

(** ** The node *)

(** Collaborators the node imports: the multihash and multiaddr decoders
    (a thrown exception is the left injection), the protobuf marshalling
    helpers and the query-result helpers of the util module. *)
Class Imports : Type := {
  Multihash_fromB58String : string → Error + list N;
  inflateMultiaddr : string → Error + PeerInfo;
  peerInfoProtoMarshal : PeerInfo → JsVal;
  peerInfoFromProto : JsVal → PeerInfo;
  PeerId_toString : PeerId → string;
  resultStreamThrough : Source JsVal → Source JsVal;
  objectIdsForQueryResult : JsVal → list string;
  expandQueryResult : JsVal → list JsVal → JsVal
}.

(** Argument of [lookup]: [string | PeerId]. *)
Inductive PeerIdArg : Type :=
| IdString (s : string)
| IdObject (p : PeerId).

(** Argument of the peer-targeting calls: [PeerInfo | PeerId | string]. *)
Inductive PeerRef : Type :=
| RefPeerInfo (p : PeerInfo)
| RefPeerId (p : PeerId)
| RefString (s : string).

Section Node.

Context {imports : Imports}.

(** *** Transport adapter *)

(** Modelled from the spec: [newAbortable] of the libp2p node module, which
    is not part of the sources at hand; it hands out the abortable stage of
    the heartbeat. *)
Definition newAbortable (p : P2PNode) : Promise Abortable :=
  _ ← tell EvNewAbortable; mret mkAbortable.

(** Modelled from the spec: [dialByPeerInfo] of the libp2p node module.
    A dial of a known peer on a protocol yields a stream or fails with a
    connectivity error. *)
Definition dialByPeerInfo (p : P2PNode) (peer : PeerInfo) (proto : protocol)
  : Promise Connection :=
  _ ← tell (EvDial peer proto);
  match network p peer proto with
  | inr conn => Promise_resolve conn
  | inl err => Promise_reject err
  end.

(** Modelled from the spec: the peer book of the transport, which holds an
    entry for a peer id or none.  [peerBook.getByB58String] throws when it
    has no entry. *)
Definition getByB58String (book : gmap string PeerInfo) (b58 : string)
  : Error + PeerInfo :=
  match book !! b58 with
  | Some info => inr info
  | None => inl (mkError "PeerInfo not found")
  end.

(** [pull(source, ...stages)] with a sink at the end starts draining at
    once and returns. *)
Definition pull_spawn (stages : list stage) : Promise unit :=
  tell (EvPull stages).

(** [pull(pull.values(reqs), protoStreamEncode(_), conn, protoStreamDecode(_))] *)
Definition exchange (reqs : list JsVal) (conn : Connection) : Source JsVal :=
  conn_reply conn reqs.

(** [pull.collect] wrapped in a promise, as the [remote*] collectors do. *)
Definition pull_collect {A} (s : Source A) : Promise (list A) :=
  match ended s with
  | Some err => Promise_reject err
  | None => Promise_resolve (items s)
  end.

(** *** Helpers of the util module *)

(** Modelled from the spec: [pullToPromise] of the util module, which is
    not part of the sources at hand.  A one-shot exchange decodes exactly
    one response message and resolves with it; an error before the first
    message fails the whole call; a stream that ends without a message
    resolves with [undefined]. *)
Definition pullToPromise {A} (s : Source A) : Promise (option A) :=
  match items s with
  | x :: _ => Promise_resolve (Some x)
  | [] => match ended s with
          | Some err => Promise_reject err
          | None => Promise_resolve None
          end
  end.

(** Modelled from the spec: [lookupResponseToPeerInfo] of the util module.
    The lookup response carries a peer address info or nothing; nothing
    translates to an absent [PeerInfo]. *)
Definition lookupResponseToPeerInfo (resp : JsVal) : option PeerInfo :=
  let peer := get_field "peer" resp in
  if is_nullish peer then None else Some (peerInfoFromProto peer).

(** Modelled from the spec: [pullRepeatedly] of the util module.  The
    source hands out [value] at once on the first read and then again one
    [interval] (in milliseconds) after the previous emission.  [alive t]
    tells whether the stages downstream still read at time [t] (the
    connection is open and the abortable has not been aborted); [reads]
    bounds the number of reads observed. *)
Fixpoint pullRepeatedly_emissions
    (value : JsVal) (interval : N) (alive : N → bool) (reads : nat) (now : N)
  : list (N * JsVal) :=
  match reads with
  | O => []
  | S reads' =>
      if alive now
      then (now, value) :: pullRepeatedly_emissions value interval alive reads' (now + interval)
      else []
  end.

(** Modelled from the spec: running a spawned pipeline whose source is
    [pullRepeatedly], through an abortable stage into a connection.  The
    messages written to the connection, with their times; reading stops
    when the connection is closed or the abortable is aborted. *)
Definition heartbeat (stages : list stage) (aborted : N → bool) (reads : nat)
  : list (N * JsVal) :=
  match stages with
  | [StRepeatedly value interval; StAbortable _; StEncode _; StConn conn; StOnEnd _] =>
      pullRepeatedly_emissions value interval
        (λ t, conn_open conn t && negb (aborted t)) reads 0
  | _ => []
  end.

(** *** [MediachainNode] *)

Definition register (node : MediachainNode) : Promise bool :=
  match directory node with
  | None => Promise_reject (mkError "No known directory server, cannot register")
  | Some dir =>
      abortable ← newAbortable (p2p node);
      let req := JObj [("info", peerInfoProtoMarshal (peerInfo (p2p node)))] in
      conn ← dialByPeerInfo (p2p node) dir dir_register;
      _ ← pull_spawn [ StRepeatedly req (5000 * 60);
                       StAbortable abortable;
                       StEncode RegisterPeer;
                       StConn conn;
                       StOnEnd "registration connection ended" ];
      mret true
  end.

(** The first statement of [lookup]: a [PeerId] becomes its base-58
    string, a string is checked to decode as a multihash. *)
Definition lookup_peerId (peerId : PeerIdArg) : Error + string :=
  match peerId with
  | IdObject p => inr (toB58String p)
  | IdString s =>
      match Multihash_fromB58String s with
      | inr _ => inr s
      | inl err =>
          inl (mkError ("Peer id is not a valid multihash: " +:+ message err))
      end
  end.

Definition lookup (node : MediachainNode) (peerId : PeerIdArg)
  : Promise (option PeerInfo) :=
  match lookup_peerId peerId with
  | inl err => Promise_reject err
  | inr peerId =>
      _ ← tell (EvPeerBookGet peerId);
      match getByB58String (peerBook (p2p node)) peerId with
      | inr peerInfo => Promise_resolve (Some peerInfo)
      | inl _ =>
          match directory node with
          | None => Promise_reject (mkError "No known directory server, cannot lookup")
          | Some dir =>
              conn ← dialByPeerInfo (p2p node) dir dir_lookup;
              first ← pullToPromise
                        (pull_map lookupResponseToPeerInfo
                           (exchange [JObj [("id", JStr peerId)]] conn));
              (* [?PeerInfo]: [undefined] and [null] are both absent *)
              mret (mjoin first)
          end
      end
  end.

Definition _lookupIfNeeded (node : MediachainNode) (peer : PeerRef)
  : Promise (option PeerInfo) :=
  match peer with
  | RefPeerInfo info => Promise_resolve (Some info)
  | RefPeerId p => lookup node (IdObject p)
  | RefString s =>
      if String.prefix "/" s then
        match inflateMultiaddr s with
        | inr peerInfo => Promise_resolve (Some peerInfo)
        | inl err =>
            Promise_reject (mkError ("Peer id is not a valid multiaddr: " +:+ message err))
        end
      else lookup node (IdString s)
  end.

(** The peer as a template literal prints it. *)
Definition peer_template (peer : PeerRef) : string :=
  match peer with
  | RefString s => s
  | RefPeerId p => PeerId_toString p
  | RefPeerInfo _ => "[object Object]"
  end.

Definition openConnection (node : MediachainNode) (peer : PeerRef) (proto : protocol)
  : Promise Connection :=
  maybePeer ← _lookupIfNeeded node peer;
  peerInfo ← match maybePeer with
             | None => Promise_reject (mkError ("Unable to locate peer " +:+ peer_template peer))
             | Some info => Promise_resolve info
             end;
  dialByPeerInfo (p2p node) peerInfo proto.

Definition remoteQueryStream (node : MediachainNode) (peer : PeerRef) (queryString : string)
  : Promise (Source JsVal) :=
  conn ← openConnection node peer node_query;
  mret (resultStreamThrough (exchange [JObj [("query", JStr queryString)]] conn)).

Definition remoteQuery (node : MediachainNode) (peer : PeerRef) (queryString : string)
  : Promise (list JsVal) :=
  stream ← remoteQueryStream node peer queryString;
  pull_collect stream.

Definition remoteDataStream (node : MediachainNode) (peer : PeerRef) (keys : list string)
  : Promise (Source JsVal) :=
  conn ← openConnection node peer node_data;
  mret (pull_map (get_field "data")
          (resultStreamThrough (exchange [JObj [("keys", JArr (JStr <$> keys))]] conn))).

Definition remoteData (node : MediachainNode) (peer : PeerRef) (keys : list string)
  : Promise (list JsVal) :=
  stream ← remoteDataStream node peer keys;
  pull_collect stream.

Definition _expandQueryResultData (node : MediachainNode) (peer : PeerRef) (result : JsVal)
  : Promise JsVal :=
  let objectIds := objectIdsForQueryResult result in
  if (length objectIds <? 1)%nat then Promise_resolve result
  else
    dataResults ← remoteData node peer objectIds;
    mret (expandQueryResult result dataResults).

(** The mapper handed to [paramap]: [cb(null, x)] is a resolution,
    [cb(err)] a rejection. *)
Definition expandElement (node : MediachainNode) (peer : PeerRef) (queryResult : JsVal)
  : Promise JsVal :=
  if is_nullish (get_field "value" queryResult) then Promise_resolve queryResult
  else _expandQueryResultData node peer (get_field "value" queryResult).

(** *** Query expansion *)

(** The mapper of [remoteQueryWithDataStream]: a result without a value is
    called back with before the mapper returns, any other from the promise
    of [_expandQueryResultData], some time after the mapper has returned. *)
Definition expandMapper (node : MediachainNode) (peer : PeerRef) (queryResult : JsVal)
  : Call JsVal :=
  mkCall (is_nullish (get_field "value" queryResult))
         (expandElement node peer queryResult).

Definition remoteQueryWithDataStream
    (node : MediachainNode) (peer : PeerRef) (queryString : string)
  : Promise (Through JsVal) :=
  resultStream ← remoteQueryStream node peer queryString;
  mret (paramap (expandMapper node peer) None resultStream).

(** [remoteQueryWithData], under the order [sched] in which the results of
    the query arrive and the data fetches call back. *)
Definition remoteQueryWithData
    (node : MediachainNode) (peer : PeerRef) (queryString : string)
    (sched : list ParaEvent)
  : Promise (list JsVal) :=
  stream ← remoteQueryWithDataStream node peer queryString;
  pull_collect_through sched stream.

End Node.

(** The same imports with another multihash decoder. *)
Definition with_multihash_decoder
    (decode : string → Error + list N) (i : Imports) : Imports :=
  {| Multihash_fromB58String := decode;
     inflateMultiaddr := @inflateMultiaddr i;
     peerInfoProtoMarshal := @peerInfoProtoMarshal i;
     peerInfoFromProto := @peerInfoFromProto i;
     PeerId_toString := @PeerId_toString i;
     resultStreamThrough := @resultStreamThrough i;
     objectIdsForQueryResult := @objectIdsForQueryResult i;
     expandQueryResult := @expandQueryResult i |}.

(** ** A small network to run the node on *)

Module Fixture.

Definition base58 : string :=
  "123456789ABCDEFGHJKLMNPQRSTUVWXYZabcdefghijkmnopqrstuvwxyz".

Fixpoint in_alphabet (c : ascii) (alphabet : string) : bool :=
  match alphabet with
  | EmptyString => false
  | String c' rest => if Ascii.eqb c c' then true else in_alphabet c rest
  end.

Fixpoint all_base58 (s : string) : bool :=
  match s with
  | EmptyString => true
  | String c rest => in_alphabet c base58 && all_base58 rest
  end.

(** Object ids of a value: the strings listed under ["refs"]. *)
Definition ids_of (v : JsVal) : list string :=
  match get_field "refs" v with
  | JArr xs => omap (λ x, match x with JStr s => Some s | _ => None end) xs
  | _ => []
  end.

Definition imports : Imports := {|
  Multihash_fromB58String s :=
    if all_base58 s then inr [] else inl (mkError "Non-base58 character");
  inflateMultiaddr s :=
    if String.eqb s "/ip4/127.0.0.1/tcp/9001/p2p/QmB"
    then inr (mkPeerInfo (mkPeerId "QmB") ["/ip4/127.0.0.1/tcp/9001"])
    else inl (mkError "invalid address");
  peerInfoProtoMarshal info := JObj [("id", JStr (toB58String (id info)))];
  peerInfoFromProto m :=
    mkPeerInfo (mkPeerId (match get_field "id" m with JStr s => s | _ => "" end)) [];
  PeerId_toString p := toB58String p;
  resultStreamThrough s := s;
  objectIdsForQueryResult := ids_of;
  expandQueryResult v data := JObj [("value", v); ("data", JArr data)]
|}.

Definition dirInfo : PeerInfo := mkPeerInfo (mkPeerId "QmDir") ["/ip4/10.0.0.1/tcp/9000"].
Definition peerB : PeerInfo := mkPeerInfo (mkPeerId "QmB") ["/ip4/127.0.0.1/tcp/9001"].
Definition self : PeerInfo := mkPeerInfo (mkPeerId "QmSe1f") ["/ip4/127.0.0.1/tcp/9002"].

(** Query results of peer B: one without references, one with a
    reference B can serve, one with a reference B cannot serve. *)
Definition plain : JsVal := JObj [("simple", JStr "hello")].
Definition withRef : JsVal := JObj [("refs", JArr [JStr "QmObj1"])].
Definition dangling : JsVal := JObj [("refs", JArr [JStr "QmGone"])].
Definition wrap (v : JsVal) : JsVal := JObj [("value", v)].

(** A statement about an object B can serve, and the data object B serves
    for it. *)
Definition statement : JsVal :=
  JObj [("simple", JObj [("stmt", JObj [("object", JStr "QmObj2");
                                        ("namespace", JStr "scratch.test")])])].
Definition object2 : JsVal := JObj [("key", JStr "QmObj2"); ("data", JStr "payload2")].
(** A statement about an object B cannot serve. *)
Definition missing : JsVal :=
  JObj [("simple", JObj [("stmt", JObj [("object", JStr "QmGone");
                                        ("namespace", JStr "scratch.test")])])].

(** The string under key [k] of a single request message. *)
Definition req_string (k : string) (reqs : list JsVal) : string :=
  match reqs with
  | [r] => match get_field k r with JStr s => s | _ => "" end
  | _ => ""
  end.

Definition req_keys (reqs : list JsVal) : list string :=
  match reqs with
  | [r] => match get_field "keys" r with
           | JArr xs => omap (λ x, match x with JStr s => Some s | _ => None end) xs
           | _ => []
           end
  | _ => []
  end.

Definition reply (proto : protocol) (reqs : list JsVal) : Source JsVal :=
  match proto with
  | dir_lookup =>
      if String.eqb (req_string "id" reqs) "QmB"
      then mkSource [JObj [("peer", JObj [("id", JStr "QmB")])]] None
      else mkSource [JObj []] None
  | node_query =>
      if String.eqb (req_string "query" reqs) "SELECT plain"
      then mkSource [wrap plain] None
      else if String.eqb (req_string "query" reqs) "SELECT broken"
      then mkSource [wrap plain; wrap dangling; wrap withRef] None
      else if String.eqb (req_string "query" reqs) "SELECT statement"
      then mkSource [wrap plain; wrap statement; JObj []] None
      else if String.eqb (req_string "query" reqs) "SELECT missing"
      then mkSource [wrap statement; wrap missing] None
      else if String.eqb (req_string "query" reqs) "SELECT stale"
      then mkSource [wrap withRef; wrap dangling; wrap withRef] None
      else mkSource [wrap plain; wrap withRef; JObj []] None
  | node_data =>
      if bool_decide (req_keys reqs = ["QmObj1"])
      then mkSource [JObj [("data", JStr "payload1")]] None
      else if bool_decide (req_keys reqs = ["QmObj2"])
      then mkSource [JObj [("data", object2)]] None
      else mkSource [] (Some (mkError "object not found"))
  | _ => mkSource [] None
  end.

(** Every stream stays open for a quarter of an hour. *)
Definition open_at (t : N) : bool := (t <? 900000)%N.

Definition stream (proto : protocol) : Connection :=
  mkConnection (reply proto) open_at.

Definition net (peer : PeerInfo) (proto : protocol) : Error + Connection :=
  if String.eqb (toB58String (id peer)) "QmDown"
  then inl (mkError "connection refused")
  else inr (stream proto).

Definition transport (book : gmap string PeerInfo) : P2PNode :=
  mkP2PNode self book net.

(** A node bound to the directory, with an empty peer book. *)
Definition node : MediachainNode := mkNode (transport ∅) (Some dirInfo) "(aleph)".
(** The same node without a directory. *)
Definition lonely : MediachainNode := mkNode (transport ∅) None "(aleph)".
(** A node with peer B in its peer book. *)
Definition connected : MediachainNode :=
  mkNode (transport {[ "QmB" := peerB ]}) None "(aleph)".

(** The same imports with the decoder of the multihashes package and the
    query-result helpers as modelled. *)
Definition modelled : Imports := {|
  Multihash_fromB58String := Multihash.fromB58String;
  inflateMultiaddr := @inflateMultiaddr imports;
  peerInfoProtoMarshal := @peerInfoProtoMarshal imports;
  peerInfoFromProto := @peerInfoFromProto imports;
  PeerId_toString := @PeerId_toString imports;
  resultStreamThrough := @resultStreamThrough imports;
  objectIdsForQueryResult := Expansion.objectIdsForQueryResult;
  expandQueryResult := Expansion.expandQueryResult
|}.

(** A peer that answers every query with [n] results, each with a
    reference it can serve. *)
Definition crowd_reply (n : nat) (proto : protocol) (reqs : list JsVal) : Source JsVal :=
  match proto with
  | node_query => mkSource (replicate n (wrap withRef)) None
  | _ => reply proto reqs
  end.

Definition crowd_net (n : nat) (peer : PeerInfo) (proto : protocol) : Error + Connection :=
  inr (mkConnection (crowd_reply n proto) open_at).

Definition crowd (n : nat) : MediachainNode :=
  mkNode (mkP2PNode self ∅ (crowd_net n)) None "(aleph)".

End Fixture.

(** ** Configuration, one-shot calls and handlers of the node *)

Section NodeServices.

Context {imports : Imports}.

(** [setDirectory]: a string is inflated first; when that throws, the
    exception escapes before the assignment and the node is as before. *)
Definition setDirectory (node : MediachainNode) (dirInfo : PeerInfo + string)
  : Error + MediachainNode :=
  match dirInfo with
  | inl info => inr (mkNode (p2p node) (Some info) (infoMessage node))
  | inr s =>
      match inflateMultiaddr s with
      | inr info => inr (mkNode (p2p node) (Some info) (infoMessage node))
      | inl err => inl err
      end
  end.

Definition setInfoMessage (node : MediachainNode) (message : string) : MediachainNode :=
  mkNode (p2p node) (directory node) message.

Definition ping (node : MediachainNode) (peer : PeerRef) : Promise (option bool) :=
  conn ← openConnection node peer node_ping;
  pullToPromise (pull_map (λ _, true) (exchange [JObj []] conn)).

Definition remoteNodeInfo (node : MediachainNode) (peer : PeerRef)
  : Promise (option JsVal) :=
  conn ← openConnection node peer node_id;
  pullToPromise (exchange [JObj []] conn).

(** [pingHandler]: every decoded ping is handed to the pong encoder.  A
    handler is seen as the function from the messages decoded off the
    stream to the messages handed to the encoder. *)
Definition pingHandler (node : MediachainNode) (incoming : Source JsVal) : Source JsVal :=
  incoming.

(** [idHandler]: the response is built from the node's identity and its
    info message when the handler is entered, and sent for every decoded
    request. *)
Definition idHandler (node : MediachainNode) (incoming : Source JsVal) : Source JsVal :=
  let response := JObj [ ("peer", JStr (toB58String (id (peerInfo (p2p node)))));
                         ("info", JStr (infoMessage node)) ] in
  pull_map (λ _, response) incoming.

Definition is_pull (ev : event) : bool :=
  match ev with EvPull _ => true | _ => false end.

(** Number of pipelines a call starts. *)
Definition pulls {A} (p : Promise A) : nat := length (List.filter is_pull (trace p)).

(** An action of a call that resolves a peer through [node] towards
    [proto]: a peer-book read, a dial of the node's directory on the lookup
    protocol, or a dial on [proto]. *)
Definition resolution_step (node : MediachainNode) (proto : protocol) (ev : event) : Prop :=
  match ev with
  | EvPeerBookGet _ => True
  | EvDial p pr => (directory node = Some p ∧ pr = dir_lookup) ∨ pr = proto
  | _ => False
  end.

(** A stream whose remote end runs [handler], the codec delivering each
    message as it was handed to the encoder. *)
Definition served_by (handler : Source JsVal → Source JsVal) : Connection :=
  mkConnection (λ reqs, handler (pull_values reqs)) (λ _, true).

End NodeServices.

(** [RemoteNode]: a node bound to one fixed peer. *)
Module RemoteNode.

Record t : Type := mk { node : MediachainNode; remotePeerInfo : PeerInfo }.

Section Facade.

Context {imports : Imports}.

Definition ping (r : t) : Promise (option bool) :=
  ping (node r) (RefPeerInfo (remotePeerInfo r)).

Definition query (r : t) (queryString : string) : Promise (list JsVal) :=
  remoteQuery (node r) (RefPeerInfo (remotePeerInfo r)) queryString.

Definition data (r : t) (keys : list string) : Promise (list JsVal) :=
  remoteData (node r) (RefPeerInfo (remotePeerInfo r)) keys.

Definition queryWithData (r : t) (queryString : string) (sched : list ParaEvent)
  : Promise (list JsVal) :=
  remoteQueryWithData (node r) (RefPeerInfo (remotePeerInfo r)) queryString sched.

End Facade.

End RemoteNode.

(** A client whose peer B runs the ping and identity handlers. *)
Module Loopback.

Definition server : MediachainNode :=
  mkNode (mkP2PNode Fixture.peerB ∅ Fixture.net) None "(aleph)".

Definition net (peer : PeerInfo) (proto : protocol) : Error + Connection :=
  match proto with
  | node_ping => inr (served_by (pingHandler server))
  | node_id => inr (served_by (idHandler (setInfoMessage server "node B, rack 4")))
  | _ => Fixture.net peer proto
  end.

Definition client : MediachainNode :=
  mkNode (mkP2PNode Fixture.self ∅ net) None "(aleph)".

End Loopback.

(** ** The REST client *)

Module Rest.

(** Strings are sequences of code units below 256. *)

Definition newline : ascii := "010"%char.

(** [s.split('\n')]: the pieces between the newlines, at least one. *)
Fixpoint split_newline (s : string) : list string :=
  match s with
  | EmptyString => [EmptyString]
  | String c rest =>
      if Ascii.eqb c newline then EmptyString :: split_newline rest
      else match split_newline rest with
           | piece :: more => String c piece :: more
           | [] => [String c EmptyString]
           end
  end.

(** [.filter(line => line.length > 0)] *)
Definition nonempty (line : string) : bool := (0 <? String.length line)%nat.

(** [s.split('\n').filter(line => line.length > 0)] *)
Definition lines (s : string) : list string :=
  List.filter nonempty (split_newline s).

(** White space and line terminators among the code units below 256:
    tab, line feed, vertical tab, form feed, carriage return, space and
    no-break space. *)
Definition is_space (c : ascii) : bool :=
  let n := nat_of_ascii c in
  ((n =? 9) || (n =? 10) || (n =? 11) || (n =? 12) || (n =? 13)
   || (n =? 32) || (n =? 160))%nat.

Fixpoint trimStart (s : string) : string :=
  match s with
  | EmptyString => EmptyString
  | String c rest => if is_space c then trimStart rest else s
  end.

Fixpoint trimEnd (s : string) : string :=
  match s with
  | EmptyString => EmptyString
  | String c rest =>
      match trimEnd rest with
      | EmptyString => if is_space c then EmptyString else String c EmptyString
      | kept => String c kept
      end
  end.

(** [s.trim()] *)
Definition trim (s : string) : string := trimEnd (trimStart s).

(** Whether a line feed occurs in [s]. *)
Fixpoint has_newline (s : string) : bool :=
  match s with
  | EmptyString => false
  | String c rest => Ascii.eqb c newline || has_newline rest
  end.

(** Whether [s] is white space throughout. *)
Fixpoint all_space (s : string) : bool :=
  match s with
  | EmptyString => true
  | String c rest => is_space c && all_space rest
  end.

(** The double quote, as a string. *)
Definition dquote : string := String "034"%char EmptyString.

(** A thrown or rejected error object: [RestError] carries a status code,
    errors of the socket layer an [errno]. *)
Record JsError : Type := mkJsError {
  err_message : string;
  err_errno : option string;
  err_statusCode : option N
}.

Definition plain_error (msg : string) : JsError := mkJsError msg None None.

Record FetchResponse : Type := mkResponse {
  ok : bool;
  status : N;
  statusText : string;
  resp_text : string
}.

(** [new RestError(response, responseBody)] *)
Definition RestError (response : FetchResponse) (responseBody : string) : JsError :=
  mkJsError (statusText response +:+ String newline EmptyString +:+ responseBody)
            None (Some (status response)).

(** The options object handed to [fetch]; [None] is an absent property. *)
Record Args : Type := mkArgs {
  arg_timeout : option N;
  arg_method : option string;
  arg_headers : option (list (string * string));
  arg_body : option string
}.

Definition no_args : Args := mkArgs None None None None.

(** [Object.assign({timeout: t}, args)] *)
Definition assign_timeout (t : N) (args : Args) : Args :=
  mkArgs (match arg_timeout args with Some t' => Some t' | None => Some t end)
         (arg_method args) (arg_headers args) (arg_body args).

(** A promise of the client: the requests handed to [fetch], and how it
    settles. *)
Definition Http (A : Type) : Type := (list (string * Args) * (JsError + A))%type.

Definition Http_then {A B} (f : A → Http B) (p : Http A) : Http B :=
  match p with
  | (l, inr a) => let '(l', r) := f a in (l ++ l', r)
  | (l, inl e) => (l, inl e)
  end.

(** [p.then(f)] for an [f] that returns a plain value or throws. *)
Definition Http_map {A B} (f : A → JsError + B) (p : Http A) : Http B :=
  match p with
  | (l, inr a) => (l, f a)
  | (l, inl e) => (l, inl e)
  end.

(** [p.catch(f)] *)
Definition Http_catch {A} (f : JsError → JsError + A) (p : Http A) : Http A :=
  match p with
  | (l, inl e) => (l, f e)
  | settled => settled
  end.

Record RestClient : Type := mkClient { apiUrl : string; requestTimeout : N }.

(** The options object of the constructor: the two properties it reads,
    each present or not, and whatever other properties the object has. *)
Record Options : Type := mkOptions {
  opt_apiUrl : option string;
  opt_requestTimeout : option N;
  opt_other : list (string * string)
}.

Definition DEFAULT_REQUEST_TIMEOUT : N := 15000.

Definition constructor (options : Options) : RestClient :=
  mkClient
    (match opt_apiUrl options with
     | Some url => if String.eqb url "" then "" else url
     | None => ""
     end)
    (match opt_requestTimeout options with
     | Some t => t
     | None => DEFAULT_REQUEST_TIMEOUT
     end).

Definition _makeUrl (client : RestClient) (path : string) : string :=
  let absPath := if String.prefix "/" path then path else "/" +:+ path in
  apiUrl client +:+ absPath.

Section Client.

(** The [fetch] of the environment: a response, or a failure of the
    request itself. *)
Variable fetch : string → Args → JsError + FetchResponse.

Definition req (client : RestClient) (path : string) (args : Args) : Http FetchResponse :=
  let fullUrl := _makeUrl client path in
  let args := assign_timeout (requestTimeout client) args in
  ([(fullUrl, args)],
   match fetch fullUrl args with
   | inl err => inl err
   | inr response =>
       if ok response then inr response
       else inl (RestError response (resp_text response))
   end).

Definition getRequest (client : RestClient) (path : string) : Http FetchResponse :=
  req client path no_args.

(** [postRequest(path, body, false)]: every call of the client passes
    [false] for [isJSON]. *)
Definition postRequest (client : RestClient) (path : string) (body : string)
  : Http FetchResponse :=
  req client path (mkArgs None (Some "POST") (Some []) (Some body)).

Definition text_is_OK (r : FetchResponse) : JsError + bool :=
  inr (String.eqb (trim (resp_text r)) "OK").

Definition ping (client : RestClient) (peerId : string) : Http bool :=
  Http_map (λ _, inr true) (getRequest client ("ping/" +:+ peerId)).

Definition getDatastoreKeys (client : RestClient) : Http (list string) :=
  Http_map (λ r, inr (lines (resp_text r))) (getRequest client "data/keys").

Definition compactDatastore (client : RestClient) : Http bool :=
  Http_map text_is_OK (postRequest client "data/compact" "").

Definition syncDatastore (client : RestClient) : Http bool :=
  Http_map text_is_OK (postRequest client "data/sync" "").

Definition listPeers (client : RestClient) : Http (list string) :=
  Http_map (λ r, inr (lines (resp_text r))) (getRequest client "dir/list").

Definition authorize (client : RestClient) (peerId : string) (namespaces : list string)
  : Http bool :=
  Http_map text_is_OK
    (postRequest client ("auth/" +:+ peerId) (String.concat "," namespaces)).

Definition revokeAuthorization (client : RestClient) (peerId : string) : Http bool :=
  authorize client peerId [].

Definition validateStatus (status : string) : JsError + string :=
  let status := trim status in
  if String.eqb status "online" || String.eqb status "offline"
     || String.eqb status "public"
  then inr status
  else inl (plain_error ("Unknown status: " +:+ dquote +:+ status +:+ dquote)).

Definition getStatus (client : RestClient) : Http string :=
  Http_map (λ r, validateStatus (resp_text r)) (getRequest client "status").

Definition setStatus (client : RestClient) (status : string) : Http string :=
  Http_map (λ r, validateStatus (resp_text r))
    (postRequest client ("status/" +:+ status) "").

Definition getDirectoryId (client : RestClient) : Http string :=
  Http_map (λ r, inr (resp_text r)) (getRequest client "config/dir").

Definition setDirectoryId (client : RestClient) (id : string) : Http bool :=
  Http_map (λ _, inr true) (postRequest client "config/dir" id).

Definition getInfo (client : RestClient) : Http string :=
  Http_map (λ r, inr (trim (resp_text r))) (getRequest client "config/info").

Definition setInfo (client : RestClient) (info : string) : Http string :=
  Http_map (λ r, inr (resp_text r)) (postRequest client "config/info" info).

Definition getNATConfig (client : RestClient) : Http string :=
  Http_map (λ r, inr (trim (resp_text r))) (getRequest client "config/nat").

Definition setNATConfig (client : RestClient) (config : string) : Http bool :=
  Http_map text_is_OK (postRequest client "config/nat" config).

Definition getNetAddresses (client : RestClient) : Http (list string) :=
  Http_map (λ r, inr (lines (resp_text r))) (getRequest client "net/addr").

Definition shutdown (client : RestClient) : Http bool :=
  Http_catch
    (λ err, match err_errno err with
            | Some code => if String.eqb code "ECONNRESET" then inr true else inl err
            | None => inl err
            end)
    (Http_map (λ _, inr true) (postRequest client "shutdown" "")).

(** What the [listPeers] command leaves on the console. *)
Record Console : Type := mkConsole {
  requests : list (string * Args);
  stdout : list string;
  stderr : list string
}.

(** The handler of the [listPeers] command.  The options object it builds
    has the one property [peerUrl]. *)
Definition listPeers_handler (peerUrl : string) : Console :=
  let client := constructor (mkOptions None None [("peerUrl", peerUrl)]) in
  match listPeers client with
  | (l, inr peers) => mkConsole l peers []
  | (l, inl err) => mkConsole l [] [err_message err]
  end.

End Client.

End Rest.

(** A node API to run the client against. *)
Module RestFixture.

Import Rest.

Definition nl : string := String newline EmptyString.

Definition base : string := "http://localhost:9002".

Definition fetch (url : string) (args : Args) : JsError + FetchResponse :=
  if String.eqb url (base +:+ "/dir/list") then
    inr (mkResponse true 200 "OK" ("QmA" +:+ nl +:+ "QmB" +:+ nl))
  else if String.eqb url "/dir/list" then
    inl (mkJsError "only absolute urls are supported" None None)
  else if String.eqb url (base +:+ "/auth/QmA") then
    inr (mkResponse true 200 "OK" ("OK" +:+ nl))
  else if String.eqb url (base +:+ "/status/public") then
    inr (mkResponse true 200 "OK" (" public" +:+ nl))
  else if String.eqb url (base +:+ "/shutdown") then
    inl (mkJsError "socket hang up" (Some "ECONNRESET") None)
  else inr (mkResponse false 404 "Not Found" "no such route").

Definition client : RestClient := constructor (mkOptions (Some base) None []).

End RestFixture.

(** Unfolds the monadic plumbing of a promise chain. *)
Ltac run_promise :=
  unfold newAbortable, dialByPeerInfo, pull_spawn, tell, Promise_resolve,
    Promise_reject, mbind, mret, Promise_mbind, Promise_mret, Promise_then;
  cbn.

(** ** Properties of the base-58 decoder *)

Section Base58Decoder.

Lemma decode_loop_rejects (s : string) (bytes : list N) :
  Base58.all_in_alphabet s = false →
  Base58.decode_loop s bytes = inl (mkError "Non-base58 character").
Proof.
  revert bytes. induction s as [|c s IH]; intros bytes H; [discriminate|].
  cbn [Base58.all_in_alphabet Base58.decode_loop] in *.
  destruct (Base58.ALPHABET_MAP c); [by apply IH|done].
Qed.

Lemma decode_loop_accepts (s : string) (bytes : list N) :
  Base58.all_in_alphabet s = true →
  ∃ decoded, Base58.decode_loop s bytes = inr decoded.
Proof.
  revert bytes. induction s as [|c s IH]; intros bytes H; [by eexists|].
  cbn [Base58.all_in_alphabet Base58.decode_loop] in *.
  destruct (Base58.ALPHABET_MAP c); [by apply IH|done].
Qed.

(** [fromB58String] throws exactly on the strings with a character outside
    the alphabet. *)
Lemma fromB58String_rejects (s : string) :
  Base58.all_in_alphabet s = false →
  Multihash.fromB58String s = inl (mkError "Non-base58 character").
Proof.
  intros H. unfold Multihash.fromB58String, Base58.decode.
  destruct s as [|c s]; [discriminate|]. by rewrite decode_loop_rejects.
Qed.

Lemma fromB58String_accepts (s : string) :
  Base58.all_in_alphabet s = true →
  ∃ bytes, Multihash.fromB58String s = inr bytes.
Proof.
  intros H. unfold Multihash.fromB58String, Base58.decode.
  destruct s as [|c s]; [by eexists|].
  destruct (decode_loop_accepts (String c s) [0%N] H) as [decoded ->]. by eexists.
Qed.

End Base58Decoder.

(** ** Properties of the directory client *)

Section DirectoryClient.

Context {imports : Imports}.

Lemma pullRepeatedly_emissions_lookup value interval alive reads :
  ∀ (now : N) (k : nat),
    (k < reads)%nat →
    (∀ j, (j ≤ k)%nat → alive (now + N.of_nat j * interval)%N = true) →
    pullRepeatedly_emissions value interval alive reads now !! k
    = Some ((now + N.of_nat k * interval)%N, value).
Proof.
  induction reads as [|reads IH]; intros now k Hk Halive; [lia|].
  cbn [pullRepeatedly_emissions].
  pose proof (Halive 0%nat ltac:(lia)) as H0.
  replace (now + N.of_nat 0 * interval)%N with now in H0 by lia.
  rewrite H0. destruct k as [|k]; cbn.
  - f_equal. f_equal. lia.
  - rewrite IH; [|lia|].
    + f_equal. f_equal. lia.
    + intros j Hj. specialize (Halive (S j) ltac:(lia)).
      rewrite <- Halive. f_equal. lia.
Qed.

Lemma pullRepeatedly_emissions_stop value interval alive reads :
  ∀ (now : N) (j : nat),
    alive (now + N.of_nat j * interval)%N = false →
    (length (pullRepeatedly_emissions value interval alive reads now) ≤ j)%nat.
Proof.
  induction reads as [|reads IH]; intros now j Hdead; cbn; [lia|].
  destruct (alive now) eqn:Hnow; cbn; [|lia].
  destruct j as [|j].
  - replace (now + N.of_nat 0 * interval)%N with now in Hdead by lia. congruence.
  - specialize (IH (now + interval)%N j). 
    enough (length (pullRepeatedly_emissions value interval alive reads (now + interval)) ≤ j)%nat by lia.
    apply IH. rewrite <- Hdead. f_equal. lia.
Qed.

(** C1.  With a directory configured and the dial on the register protocol
    established, [register] performs exactly: a new abortable, one dial of
    the directory on [dir_register], the start of the heartbeat pipeline;
    and resolves to [true] whatever the pipeline does afterwards.  The
    pipeline goes through the abortable stage into the connection, and its
    [k]-th registration message is written at [k * 300 s] (the first one at
    once) as long as the connection is open and nobody aborted; it writes
    nothing more once the connection is closed or the abortable aborted. *)
Theorem register_starts_heartbeat
    (node : MediachainNode) (dir : PeerInfo) (conn : Connection) :
  directory node = Some dir →
  network (p2p node) dir dir_register = inr conn →
  let req := JObj [("info", peerInfoProtoMarshal (peerInfo (p2p node)))] in
  let stages := [ StRepeatedly req (300 * 1000); StAbortable mkAbortable;
                  StEncode RegisterPeer; StConn conn;
                  StOnEnd "registration connection ended" ] in
  register node
  = ([EvNewAbortable; EvDial dir dir_register; EvPull stages], Resolved true)
  ∧ (∀ aborted reads k,
        (k < reads)%nat →
        (∀ j, (j ≤ k)%nat →
              conn_open conn (N.of_nat j * (300 * 1000))%N = true
              ∧ aborted (N.of_nat j * (300 * 1000))%N = false) →
        heartbeat stages aborted reads !! k
        = Some ((N.of_nat k * (300 * 1000))%N, req))
  ∧ (∀ aborted reads j,
        conn_open conn (N.of_nat j * (300 * 1000))%N = false
        ∨ aborted (N.of_nat j * (300 * 1000))%N = true →
        (length (heartbeat stages aborted reads) ≤ j)%nat).
Proof.
  intros Hdir Hdial req stages. split; [|split].
  - unfold register. rewrite Hdir.
    unfold newAbortable, dialByPeerInfo, pull_spawn, tell.
    cbn. rewrite Hdial. cbn. reflexivity.
  - intros aborted reads k Hk Halive. unfold stages, heartbeat.
    rewrite pullRepeatedly_emissions_lookup; [reflexivity|exact Hk|].
    intros j Hj. destruct (Halive j Hj) as [Ho Ha].
    cbv beta. rewrite N.add_0_l, Ho, Ha. reflexivity.
  - intros aborted reads j Hclosed. unfold stages, heartbeat.
    apply pullRepeatedly_emissions_stop.
    cbv beta. rewrite N.add_0_l.
    destruct Hclosed as [-> | ->]; [reflexivity|apply andb_false_r].
Qed.

(** C2.  Without a directory, [register] is rejected before any transport
    action, and [lookup] of a well-formed id that the peer book does not
    hold is rejected right after the peer-book read; neither dials. *)
Theorem no_directory_configured (node : MediachainNode) :
  directory node = None →
  register node
  = ([], Rejected (mkError "No known directory server, cannot register"))
  ∧ dials (register node) = 0%nat
  ∧ ∀ peerId b58,
      lookup_peerId peerId = inr b58 →
      peerBook (p2p node) !! b58 = None →
      lookup node peerId
      = ([EvPeerBookGet b58],
         Rejected (mkError "No known directory server, cannot lookup"))
      ∧ dials (lookup node peerId) = 0%nat.
Proof.
  intros Hdir.
  assert (Hreg : register node
    = ([], Rejected (mkError "No known directory server, cannot register"))).
  { unfold register. rewrite Hdir. reflexivity. }
  split; [exact Hreg|]. split; [rewrite Hreg; reflexivity|].
  intros peerId b58 Hid Hmiss.
  assert (Hlk : lookup node peerId
    = ([EvPeerBookGet b58],
       Rejected (mkError "No known directory server, cannot lookup"))).
  { unfold lookup, getByB58String. rewrite Hid. run_promise.
    rewrite Hmiss, Hdir. reflexivity. }
  split; [exact Hlk|rewrite Hlk; reflexivity].
Qed.


(** C4.  For a well-formed peer id with an entry in the peer book,
    [lookup] resolves with that entry after the peer-book read alone: no
    dial of the directory or of anything else. *)
Theorem lookup_peer_book_hit
    (node : MediachainNode) (peerId : PeerIdArg) (b58 : string) (info : PeerInfo) :
  lookup_peerId peerId = inr b58 →
  peerBook (p2p node) !! b58 = Some info →
  lookup node peerId = ([EvPeerBookGet b58], Resolved (Some info))
  ∧ dials (lookup node peerId) = 0%nat.
Proof.
  intros Hid Hhit.
  assert (H : lookup node peerId = ([EvPeerBookGet b58], Resolved (Some info))).
  { unfold lookup, getByB58String. rewrite Hid. run_promise.
    rewrite Hhit. reflexivity. }
  split; [exact H|rewrite H; reflexivity].
Qed.

(** C6.  When the peer book misses, a directory is configured, the dial on
    the lookup protocol succeeds and the first response carries no peer
    record, [lookup] resolves (it is not rejected) with an absent
    [PeerInfo], after one dial of the directory. *)
Theorem lookup_absent_record
    (node : MediachainNode) (peerId : PeerIdArg) (b58 : string)
    (dir : PeerInfo) (conn : Connection) (resp : JsVal) :
  lookup_peerId peerId = inr b58 →
  peerBook (p2p node) !! b58 = None →
  directory node = Some dir →
  network (p2p node) dir dir_lookup = inr conn →
  items (conn_reply conn [JObj [("id", JStr b58)]]) !! 0%nat = Some resp →
  is_nullish (get_field "peer" resp) = true →
  lookup node peerId
  = ([EvPeerBookGet b58; EvDial dir dir_lookup], Resolved None).
Proof.
  intros Hid Hmiss Hdir Hdial Hresp Habsent.
  unfold lookup, getByB58String. rewrite Hid. run_promise.
  rewrite Hmiss, Hdir. run_promise. rewrite Hdial. cbn.
  unfold pullToPromise, pull_map, exchange. cbn.
  destruct (items (conn_reply conn [JObj [("id", JStr b58)]])) as [|r rest];
    [discriminate|].
  injection Hresp as ->. cbn.
  unfold lookupResponseToPeerInfo. rewrite Habsent. reflexivity.
Qed.

(** C10.  For a [PeerId] object, [lookup] takes its base-58 string and
    goes on to the peer-book read with it; the multihash decoder is not
    consulted, so the outcome is the same under any decoder, also one that
    rejects every string. *)
Theorem lookup_peer_id_object_not_validated
    (node : MediachainNode) (p : PeerId) :
  lookup_peerId (IdObject p) = inr (toB58String p)
  ∧ (∃ rest, trace (lookup node (IdObject p))
             = EvPeerBookGet (toB58String p) :: rest)
  ∧ (∀ decode,
        lookup (imports := with_multihash_decoder decode imports) node (IdObject p)
        = lookup node (IdObject p)).
Proof.
  split; [reflexivity|]. split.
  - unfold lookup. cbn [lookup_peerId]. run_promise.
    destruct (getByB58String _ _); [|eexists; reflexivity].
    destruct (directory node); [|eexists; reflexivity].
    destruct (network _ _ _) as [err|conn]; cbn; [eexists; reflexivity|].
    destruct (pullToPromise _) as [l [first|err]]; cbn; eexists; reflexivity.
  - intros decode. reflexivity.
Qed.

End DirectoryClient.

(** ** Properties of peer resolution *)

Section PeerResolution.

Context {imports : Imports}.

Lemma pullToPromise_trace {A} (s : Source A) : trace (pullToPromise s) = [].
Proof.
  unfold pullToPromise. destruct (items s); [destruct (ended s)|]; reflexivity.
Qed.

(** [lookup] dials nothing but the directory's lookup protocol. *)
Lemma lookup_no_dial_on (node : MediachainNode) (peerId : PeerIdArg) (proto : protocol) :
  proto ≠ dir_lookup →
  List.filter (is_dial_on proto) (trace (lookup node peerId)) = [].
Proof.
  intros Hproto. unfold lookup.
  destruct (lookup_peerId peerId) as [err|b58]; [reflexivity|].
  run_promise.
  destruct (getByB58String _ _) as [_|info]; [|reflexivity].
  destruct (directory node) as [dir|]; [|reflexivity].
  run_promise.
  assert (Hdir : bool_decide (dir_lookup = proto) = false).
  { apply bool_decide_eq_false. congruence. }
  destruct (network _ _ _) as [err|conn]; cbn.
  - rewrite Hdir. reflexivity.
  - pose proof (pullToPromise_trace
      (pull_map lookupResponseToPeerInfo (exchange [JObj [("id", JStr b58)]] conn)))
      as Htr.
    destruct (pullToPromise _) as [l [first|err]]; cbn in Htr; subst l; cbn;
      rewrite Hdir; reflexivity.
Qed.

Lemma _lookupIfNeeded_no_dial_on (node : MediachainNode) (peer : PeerRef) (proto : protocol) :
  proto ≠ dir_lookup →
  List.filter (is_dial_on proto) (trace (_lookupIfNeeded node peer)) = [].
Proof.
  intros Hproto. destruct peer as [info|p|s]; cbn [_lookupIfNeeded].
  - reflexivity.
  - by apply lookup_no_dial_on.
  - destruct (String.prefix "/" s).
    + destruct (inflateMultiaddr s); reflexivity.
    + by apply lookup_no_dial_on.
Qed.

(** A located peer is dialed on the protocol asked for. *)
Lemma openConnection_located
    (node : MediachainNode) (peer : PeerRef) (proto : protocol)
    (l : list event) (info : PeerInfo) :
  _lookupIfNeeded node peer = (l, Resolved (Some info)) →
  openConnection node peer proto
  = (l ++ [EvDial info proto],
     match network (p2p node) info proto with
     | inr conn => Resolved conn
     | inl err => Rejected err
     end).
Proof.
  intros H. unfold openConnection. rewrite H. run_promise.
  destruct (network _ _ _); cbn; rewrite ?app_nil_r; reflexivity.
Qed.

(** Whatever settles [openConnection] with a connection went through
    resolution to some peer and one dial of it. *)
Lemma openConnection_resolved
    (node : MediachainNode) (peer : PeerRef) (proto : protocol) (conn : Connection) :
  settled (openConnection node peer proto) = Resolved conn →
  ∃ l info,
    _lookupIfNeeded node peer = (l, Resolved (Some info))
    ∧ network (p2p node) info proto = inr conn
    ∧ trace (openConnection node peer proto) = l ++ [EvDial info proto].
Proof.
  intros H.
  destruct (_lookupIfNeeded node peer) as [l [[info|]|err]] eqn:Hl.
  - rewrite (openConnection_located _ _ _ _ _ Hl) in H |- *. cbn in H.
    destruct (network _ _ _) as [err|c] eqn:Hn; [discriminate|].
    injection H as ->. by exists l, info.
  - unfold openConnection in H. rewrite Hl in H. discriminate.
  - unfold openConnection in H. rewrite Hl in H. discriminate.
Qed.

(** C5.  Resolution dispatches on the shape of the reference: a [PeerInfo]
    comes back as it is, with an empty trace; a string starting with ["/"]
    is decoded as a multiaddr, a decoding failure giving the
    invalid-multiaddr rejection, again with an empty trace; a [PeerId] and any
    other string go to [lookup].  An absent result of resolution is
    resolved as such, and [openConnection] turns it into the
    unable-to-locate rejection without dialing the peer. *)
Theorem peer_resolution_dispatch (node : MediachainNode) :
  (∀ info, _lookupIfNeeded node (RefPeerInfo info) = ([], Resolved (Some info)))
  ∧ (∀ s, String.prefix "/" s = true →
          _lookupIfNeeded node (RefString s)
          = match inflateMultiaddr s with
            | inr peerInfo => ([], Resolved (Some peerInfo))
            | inl err =>
                ([], Rejected (mkError ("Peer id is not a valid multiaddr: "
                                        +:+ message err)))
            end)
  ∧ (∀ s, String.prefix "/" s = false →
          _lookupIfNeeded node (RefString s) = lookup node (IdString s))
  ∧ (∀ p, _lookupIfNeeded node (RefPeerId p) = lookup node (IdObject p))
  ∧ (∀ peer proto l,
        _lookupIfNeeded node peer = (l, Resolved None) →
        openConnection node peer proto
        = (l, Rejected (mkError ("Unable to locate peer " +:+ peer_template peer)))).
Proof.
  repeat split.
  - intros s Hs. cbn [_lookupIfNeeded]. rewrite Hs.
    destruct (inflateMultiaddr s); reflexivity.
  - intros s Hs. cbn [_lookupIfNeeded]. rewrite Hs. reflexivity.
  - intros peer proto l H. unfold openConnection. rewrite H. run_promise.
    rewrite app_nil_r. reflexivity.
Qed.

End PeerResolution.


(** ** Properties of the [paramap] stage *)

Section ParaMapSafety.

Context {B : Type} (t : Through B) (greedy : bool).

Lemma para_safe_init : para_safe t (para_init t).
Proof.
  constructor; cbn; try done; try lia.
  - exists [], []. repeat split; constructor.
Qed.

Lemma para_safe_answer_error (st : ParaState B) (err : Error) :
  para_safe t st → ps_error st = Some err →
  para_safe t (para_answer (Failed err) st).
Proof.
  intros [] Herr. constructor; cbn; try done.
  destruct safe_answers0 as (ds & ts & Hans & Hds & Hts).
  exists ds, (ts ++ [Failed err]). rewrite Hans, app_assoc.
  repeat split; [done|]. apply Forall_app. split; [done|].
  constructor; [|constructor]. left. exists err. repeat split; [by apply safe_error0|].
  by rewrite Herr.
Qed.

Lemma para_safe_answer_end (st : ParaState B) :
  para_safe t st → ps_ended st = true → (ps_last st ≤ ps_j st)%nat →
  para_safe t (para_answer (para_terminal t) st).
Proof.
  intros [] Hended Hlast. constructor; cbn; try done.
  destruct safe_answers0 as (ds & ts & Hans & Hds & Hts).
  exists ds, (ts ++ [para_terminal t]). rewrite Hans, app_assoc.
  repeat split; [done|]. apply Forall_app. split; [done|].
  constructor; [|constructor]. right. split; [done|].
  destruct (safe_ended0 Hended). lia.
Qed.

Lemma para_safe_hand_over (st : ParaState B) (data : B) :
  para_safe t st → ps_error st = None → ps_seen st !! ps_j st = Some data →
  para_safe t (para_hand_over data st).
Proof.
  intros [] Herr Hseen.
  destruct (safe_seen0 _ _ Hseen) as [Hj (c & Hc & Hres)].
  constructor; cbn; try done; try lia.
  - intros k b [Hne Hk]%lookup_delete_Some.
    destruct (safe_seen0 _ _ Hk) as [? ?]. split; [lia|done].
  - intros k Hk. destruct (safe_inflight0 _ Hk) as [? Hnone].
    assert (k ≠ ps_j st) by (intros ->; congruence).
    split; [lia|]. by rewrite lookup_delete_ne.
  - destruct safe_answers0 as (ds & ts & Hans & Hds & Hts).
    assert (ts = []) as ->.
    { destruct ts as [|a ts]; [done|]. inversion Hts as [|? ? Ha _]; subst.
      destruct Ha as [(e & _ & _ & Hne)|[_ Hn]]; [congruence|lia]. }
    exists (ds ++ [data]), []. rewrite Hans, !app_nil_r, fmap_app. cbn.
    repeat split; [|constructor].
    rewrite (take_S_r _ _ c) by done. apply Forall2_app; [done|].
    by constructor.
Qed.

Lemma para_safe_wait (st : ParaState B) : para_safe t st → para_safe t (para_wait st).
Proof. intros []. by constructor. Qed.

Lemma para_safe_set_started (st : ParaState B) :
  para_safe t st → para_safe t (para_set_started st).
Proof. intros []. by constructor. Qed.

Lemma para_safe_set_reading (b : bool) (st : ParaState B) :
  para_safe t st → para_safe t (para_set_reading b st).
Proof. intros []. by constructor. Qed.

Lemma para_safe_set_ended (st : ParaState B) :
  para_safe t st → ps_upstream st = [] → para_safe t (para_set_ended st).
Proof.
  intros [] Hup. constructor; cbn; try done.
  intros _. rewrite safe_upstream0 in Hup.
  apply (f_equal length) in Hup. rewrite length_drop in Hup. cbn in Hup. lia.
Qed.

Lemma para_safe_take (st : ParaState B) (c : Call B) (rest : list (Call B)) :
  para_safe t st → ps_upstream st = c :: rest →
  pending t !! ps_i st = Some c ∧ para_safe t (para_take c rest st).
Proof.
  intros [] Hup.
  assert (Hc : pending t !! ps_i st = Some c).
  { rewrite <- (Nat.add_0_r (ps_i st)), <- lookup_drop, <- safe_upstream0, Hup. done. }
  split; [done|].
  pose proof (lookup_lt_Some _ _ _ Hc) as Hlt.
  constructor; cbn; try done; try lia.
  - replace (S (ps_i st)) with (ps_i st + 1)%nat by lia.
    rewrite <- drop_drop, <- safe_upstream0, Hup. done.
  - intros k b Hk. destruct (safe_seen0 _ _ Hk) as [? ?]. split; [lia|done].
  - intros k Hk. destruct (safe_inflight0 _ Hk) as [? ?]. split; [lia|done].
  - intros Hended. destruct (safe_ended0 Hended). lia.
  - rewrite (take_S_r _ _ c) by done.
    rewrite fmap_app, concat_app, <- safe_log0. cbn. by rewrite app_nil_r.
Qed.

Lemma para_safe_add_inflight (st : ParaState B) (k : nat) :
  para_safe t st → (ps_j st ≤ k < ps_i st)%nat → ps_seen st !! k = None →
  para_safe t (para_set_inflight ({[k]} ∪ ps_inflight st) st).
Proof.
  intros [] Hk Hnone. constructor; cbn; try done.
  intros k' [->%elem_of_singleton|Hin]%elem_of_union; [done|by apply safe_inflight0].
Qed.

Lemma para_safe_remove_inflight (st : ParaState B) (k : nat) :
  para_safe t st → para_safe t (para_set_inflight (ps_inflight st ∖ {[k]}) st).
Proof.
  intros []. constructor; cbn; try done.
  intros k' [Hin _]%elem_of_difference. by apply safe_inflight0.
Qed.

Lemma para_safe_record (st : ParaState B) (k : nat) (c : Call B) :
  para_safe t st → pending t !! k = Some c →
  (ps_j st ≤ k < ps_i st)%nat → k ∉ ps_inflight st →
  para_safe t (para_record k (settled (call_promise c)) st).
Proof.
  intros [] Hc Hk Hnot.
  destruct (settled (call_promise c)) as [b|err] eqn:Hres;
    constructor; cbn; try done.
  - intros k' b' [[-> ->]|[Hne Hk']]%lookup_insert_Some; [|by apply safe_seen0].
    split; [done|by exists c].
  - intros k' Hin. destruct (safe_inflight0 _ Hin) as [? ?]. split; [done|].
    rewrite lookup_insert_ne; [done|]. by intros ->.
  - intros err' [= <-]. by exists k, c.
  - destruct safe_answers0 as (ds & ts & Hans & Hds & Hts).
    exists ds, ts. repeat split; [done..|].
    eapply Forall_impl; [exact Hts|]. cbn.
    intros a [(e & -> & He & _)|?]; [left; by exists e|by right].
Qed.

Lemma para_safe_start (drain : ParaState B → ParaState B) (st : ParaState B) :
  (∀ st', para_safe t st' → para_safe t (drain st')) →
  para_safe t st → para_safe t (para_start t drain st).
Proof.
  intros Hdrain Hst. unfold para_start.
  apply para_safe_set_started in Hst.
  destruct (ps_ended _); [by apply Hdrain|].
  destruct (_ || _); [done|]. by apply para_safe_set_reading.
Qed.

Lemma para_safe_drain (fuel : nat) (st : ParaState B) :
  para_safe t st → para_safe t (para_drain t greedy fuel st).
Proof.
  revert st. induction fuel as [|fuel IH]; intros st Hst; [done|]. cbn.
  destruct (ps_waiting st); cbn; [|done].
  destruct (ps_error st) as [err|] eqn:Herr; [by apply para_safe_answer_error|].
  destruct (ps_seen st !! ps_j st) as [data|] eqn:Hseen.
  - pose proof (para_safe_hand_over st data Hst Herr Hseen) as H1.
    assert (H2 : para_safe t
      (if greedy then para_drain t greedy fuel (para_wait (para_hand_over data st))
       else para_hand_over data st)).
    { destruct greedy; [|done]. by apply IH, para_safe_wait. }
    destruct (width_set t); [|done]. by apply para_safe_start.
  - destruct (ps_ended st) eqn:Hended; cbn; [|done].
    destruct (ps_last st <=? ps_j st)%nat eqn:Hlast; [|done].
    apply para_safe_answer_end; [done..|]. by apply Nat.leb_le.
Qed.

Lemma para_safe_drain_all (st : ParaState B) :
  para_safe t st → para_safe t (para_drain_all t greedy st).
Proof. apply para_safe_drain. Qed.

Lemma para_safe_complete (st : ParaState B) (k : nat) (c : Call B) :
  para_safe t st → pending t !! k = Some c →
  (ps_j st ≤ k < ps_i st)%nat → k ∉ ps_inflight st →
  para_safe t (para_complete t greedy k (settled (call_promise c)) st).
Proof. intros. by apply para_safe_drain_all, para_safe_record. Qed.

Lemma para_safe_step (ev : ParaEvent) (st : ParaState B) :
  para_safe t st → para_safe t (para_step t greedy ev st).
Proof.
  intros Hst. destruct ev as [| |k]; unfold para_step.
  - apply para_safe_drain_all.
    pose proof (para_safe_wait st Hst) as Hw.
    destruct (ps_started (para_wait st)); [done|].
    apply para_safe_start; [apply para_safe_drain_all|done].
  - destruct (ps_reading st); cbn [negb]; [|done].
    pose proof (para_safe_set_reading false st Hst) as Hr.
    destruct (ps_upstream (para_set_reading false st)) as [|c rest] eqn:Hup.
    + apply para_safe_drain_all, para_safe_set_ended; [exact Hr|exact Hup].
    + destruct (para_safe_take _ c rest Hr Hup) as [Hc Htake].
      cbn in Hc.
      assert (Hnot : ps_i st ∉ ps_inflight st).
      { intros Hin. destruct (safe_inflight t st Hst _ Hin). lia. }
      assert (Hnone : ps_seen st !! ps_i st = None).
      { destruct (ps_seen st !! ps_i st) as [b|] eqn:Hs; [|done].
        destruct (safe_seen t st Hst _ _ Hs). lia. }
      pose proof (safe_j t st Hst) as Hj.
      match goal with
      | |- para_safe t (if ps_ended ?st' then _ else _) =>
          assert (Hnext : para_safe t st'); [|destruct (ps_ended st'); [done|]]
      end.
      { destruct (call_sync c).
        - apply para_safe_complete; [done..|cbn; lia|done].
        - apply (para_safe_add_inflight _ (ps_i st) Htake); [cbn; lia|done]. }
      apply para_safe_start; [apply para_safe_drain_all|done].
  - case_bool_decide as Hin; [|done].
    destruct (pending t !! k) as [c|] eqn:Hc; [|done].
    destruct (safe_inflight t st Hst _ Hin) as [Hk _].
    apply para_safe_complete; [by apply para_safe_remove_inflight|done..|].
    cbn. intros [_ Hn]%elem_of_difference. apply Hn. by apply elem_of_singleton.
Qed.

Lemma para_run_cons (ev : ParaEvent) (sched : list ParaEvent) (st : ParaState B) :
  para_run t greedy (ev :: sched) st = para_run t greedy sched (para_step t greedy ev st).
Proof. reflexivity. Qed.

Lemma para_safe_run (sched : list ParaEvent) (st : ParaState B) :
  para_safe t st → para_safe t (para_run t greedy sched st).
Proof.
  revert st. induction sched as [|ev sched IH]; intros st Hst; [done|].
  cbn. by apply IH, para_safe_step.
Qed.

(** What the consumer was answered stays answered. *)
Lemma para_start_answers (drain : ParaState B → ParaState B) (st : ParaState B) :
  (∀ st', ps_answers st' `prefix_of` ps_answers (drain st')) →
  ps_answers st `prefix_of` ps_answers (para_start t drain st).
Proof.
  intros Hdrain. unfold para_start.
  destruct (ps_ended _); [apply (Hdrain (para_set_started st))|].
  by destruct (_ || _).
Qed.

Lemma para_drain_answers (fuel : nat) (st : ParaState B) :
  ps_answers st `prefix_of` ps_answers (para_drain t greedy fuel st).
Proof.
  revert st. induction fuel as [|fuel IH]; intros st; [done|]. cbn.
  destruct (ps_waiting st); cbn [negb]; [|done].
  destruct (ps_error st) as [err|]; [by apply prefix_app_r|].
  destruct (ps_seen st !! ps_j st) as [data|].
  - assert (H1 : ps_answers st `prefix_of`
      ps_answers (if greedy then para_drain t greedy fuel (para_wait (para_hand_over data st))
                  else para_hand_over data st)).
    { destruct greedy.
      - etrans; [|apply IH]. by apply prefix_app_r.
      - by apply prefix_app_r. }
    destruct (width_set t); [|done].
    etrans; [exact H1|]. by apply para_start_answers.
  - destruct (_ && _); [by apply prefix_app_r|done].
Qed.

Lemma para_drain_answers_of (fuel : nat) (st0 st : ParaState B) :
  ps_answers st0 = ps_answers st →
  ps_answers st `prefix_of` ps_answers (para_drain t greedy fuel st0).
Proof. intros <-. apply para_drain_answers. Qed.

Lemma para_step_answers (ev : ParaEvent) (st : ParaState B) :
  ps_answers st `prefix_of` ps_answers (para_step t greedy ev st).
Proof.
  destruct ev as [| |k]; unfold para_step, para_complete, para_drain_all.
  - etrans; [|apply para_drain_answers].
    cbn [ps_started para_wait]. destruct (ps_started st); [done|].
    apply (para_start_answers _ (para_wait st)). intros st'. apply para_drain_answers.
  - destruct (ps_reading st); cbn [negb]; [|done].
    destruct (ps_upstream _) as [|c rest]; [by apply para_drain_answers_of|].
    match goal with
    | |- _ `prefix_of` ps_answers (if ps_ended ?st' then _ else _) =>
        assert (Hnext : ps_answers st `prefix_of` ps_answers st');
        [|destruct (ps_ended st'); [done|]]
    end.
    { destruct (call_sync c); [|done]. by apply para_drain_answers_of. }
    etrans; [exact Hnext|]. apply para_start_answers. intros st'. apply para_drain_answers.
  - case_bool_decide; [|done]. destruct (pending t !! k); [|done].
    by apply para_drain_answers_of.
Qed.

Lemma para_run_answers (sched : list ParaEvent) (st : ParaState B) :
  ps_answers st `prefix_of` ps_answers (para_run t greedy sched st).
Proof.
  revert st. induction sched as [|ev sched IH]; intros st; [done|].
  cbn. etrans; [apply (para_step_answers ev)|apply IH].
Qed.

(** The results handed over are those of the first elements, in input
    order. *)
Lemma para_delivered_safe (st : ParaState B) :
  para_safe t st →
  Forall2 (λ c y, settled (call_promise c) = Resolved y)
          (take (ps_j st) (pending t)) (para_delivered st).
Proof.
  intros Hsafe. destruct (safe_answers t st Hsafe) as (ds & ts & Hans & Hds & Hts).
  unfold para_delivered. rewrite Hans, omap_app.
  assert (H1 : omap (λ a : Pulled B, match a with Data b => Some b | _ => None end)
                 (Data <$> ds) = ds).
  { clear. induction ds as [|d ds IH]; [done|]. cbn. by rewrite IH. }
  assert (H2 : omap (λ a : Pulled B, match a with Data b => Some b | _ => None end)
                 ts = []).
  { clear -Hts. induction Hts as [|a ts Ha _ IH]; [done|]. cbn.
    destruct Ha as [(err & -> & _)|[-> _]]; [done|].
    unfold para_terminal. by destruct (upstream_end t). }
  by rewrite H1, H2, app_nil_r.
Qed.

(** With an error recorded, [drain] answers the held callback with it,
    whatever results wait for their turn. *)
Lemma para_drain_error (fuel : nat) (st : ParaState B) (err : Error) :
  ps_error st = Some err →
  para_drain t greedy (S fuel) st
  = if ps_waiting st then para_answer (Failed err) st else st.
Proof. intros Herr. cbn [para_drain]. rewrite Herr. by destruct (ps_waiting st). Qed.

Lemma para_pull_error (st : ParaState B) (err : Error) :
  ps_error st = Some err →
  ps_answers (para_step t greedy Pull st) = ps_answers st ++ [Failed err].
Proof.
  intros Herr. unfold para_step, para_drain_all. cbn [ps_started para_wait].
  destruct (ps_started st).
  - by rewrite (para_drain_error _ _ err).
  - unfold para_start. cbn [ps_ended para_set_started para_wait].
    destruct (ps_ended st).
    + rewrite (para_drain_error _ (para_set_started _) err) by done.
      cbn [ps_waiting para_set_started para_wait].
      by rewrite (para_drain_error _ _ err).
    + destruct (_ || _); by rewrite (para_drain_error _ _ err).
Qed.

(** A fetch that fails ends the stream at the consumer's next pull: at
    once when the consumer is waiting, whatever the position of the
    element; what was handed over before stays. *)
Lemma para_complete_failure (st : ParaState B) (k : nat) (c : Call B) (err : Error) :
  k ∈ ps_inflight st → pending t !! k = Some c →
  settled (call_promise c) = Rejected err →
  let st' := para_step t greedy (Complete k) st in
  if ps_waiting st then ps_answers st' = ps_answers st ++ [Failed err]
  else ps_answers st' = ps_answers st
       ∧ ps_answers (para_step t greedy Pull st') = ps_answers st ++ [Failed err].
Proof.
  intros Hin Hc Hres. cbn zeta.
  set (st0 := para_record k (Rejected err)
                (para_set_inflight (ps_inflight st ∖ {[k]}) st)).
  assert (Hstep : para_step t greedy (Complete k) st
                  = if ps_waiting st then para_answer (Failed err) st0 else st0).
  { unfold para_step. rewrite bool_decide_eq_true_2 by done. rewrite Hc, Hres.
    unfold para_complete, para_drain_all. fold st0.
    by rewrite (para_drain_error _ _ err). }
  rewrite Hstep. destruct (ps_waiting st); [done|]. split; [done|].
  by rewrite (para_pull_error st0 err).
Qed.

(** A result whose turn it is goes to a waiting consumer at once. *)
Lemma para_drain_hand_over (fuel : nat) (st : ParaState B) (data : B) :
  ps_waiting st = true → ps_error st = None →
  ps_seen st !! ps_j st = Some data →
  ps_answers st ++ [Data data]
    `prefix_of` ps_answers (para_drain t greedy (S fuel) st).
Proof.
  intros Hw Herr Hseen. cbn [para_drain]. rewrite Hw, Herr, Hseen. cbn [negb].
  cbn zeta.
  assert (H1 : ps_answers st ++ [Data data] `prefix_of`
      ps_answers (if greedy then para_drain t greedy fuel (para_wait (para_hand_over data st))
                  else para_hand_over data st)).
  { pose proof (para_drain_answers fuel (para_wait (para_hand_over data st))) as H0.
    cbn [ps_answers para_wait para_hand_over] in H0.
    destruct greedy; [exact H0|done]. }
  destruct (width_set t); [|done].
  etrans; [exact H1|]. apply para_start_answers. intros st'. apply para_drain_answers.
Qed.

Lemma para_complete_next (st : ParaState B) (c : Call B) (data : B) :
  ps_waiting st = true → ps_error st = None →
  ps_j st ∈ ps_inflight st → pending t !! ps_j st = Some c →
  settled (call_promise c) = Resolved data →
  ps_answers st ++ [Data data]
    `prefix_of` ps_answers (para_step t greedy (Complete (ps_j st)) st).
Proof.
  intros Hw Herr Hin Hc Hres. unfold para_step.
  rewrite bool_decide_eq_true_2 by done. rewrite Hc, Hres.
  unfold para_complete, para_drain_all.
  apply (para_drain_hand_over _ (para_record _ _ (para_set_inflight _ _))); cbn; try done.
  by rewrite lookup_insert_eq.
Qed.

End ParaMapSafety.

Section ParaMapNoWidth.

Context {B : Type} (t : Through B).

Hypothesis no_width : width t = None.

Lemma width_set_no_width : width_set t = false.
Proof. unfold width_set. by rewrite no_width. Qed.

Lemma width_reached_no_width (st : ParaState B) : width_reached t st = false.
Proof. unfold width_reached. by rewrite no_width. Qed.

(** Without a width, [drain] touches what the consumer sees and nothing
    of the reading side. *)
Lemma para_drain_frame (greedy : bool) (fuel : nat) (st : ParaState B) :
  let st' := para_drain t greedy fuel st in
  ps_upstream st' = ps_upstream st ∧ ps_i st' = ps_i st
  ∧ ps_last st' = ps_last st ∧ ps_started st' = ps_started st
  ∧ ps_reading st' = ps_reading st ∧ ps_ended st' = ps_ended st
  ∧ ps_error st' = ps_error st ∧ ps_inflight st' = ps_inflight st
  ∧ ps_log st' = ps_log st.
Proof.
  revert st. induction fuel as [|fuel IH]; intros st; [done|]. cbn.
  destruct (ps_waiting st); cbn; [|done].
  destruct (ps_error st) eqn:Herr; [by cbn|].
  destruct (ps_seen st !! ps_j st) as [data|].
  - rewrite width_set_no_width. destruct greedy; [|by cbn].
    pose proof (IH (para_wait (para_hand_over data st))) as H.
    cbn in H |- *. by rewrite Herr in H.
  - destruct (_ && _); by cbn.
Qed.

Lemma para_start_reads (drain : ParaState B → ParaState B) (st : ParaState B) :
  ps_ended st = false → ps_reading st = false →
  para_start t drain st = para_set_reading true (para_set_started st).
Proof.
  intros He Hr. unfold para_start. cbn.
  by rewrite He, Hr, width_reached_no_width.
Qed.

Lemma para_start_reading (drain : ParaState B → ParaState B) (st : ParaState B) :
  ps_ended st = false → ps_reading st = true →
  para_start t drain st = para_set_started st.
Proof. intros He Hr. unfold para_start. cbn. by rewrite He, Hr. Qed.

Lemma is_final_terminal : is_final (para_terminal t) = true.
Proof. unfold para_terminal. by destruct (upstream_end t). Qed.

(** With enough nesting, a consumer that pulls again at once is handed
    every result whose turn has come. *)
Lemma para_drain_live (fuel : nat) (st : ParaState B) :
  (size (ps_seen st) < fuel)%nat →
  calls_accounted st → callback_answered st →
  let st' := para_drain t true fuel st in
  calls_accounted st' ∧ callback_held st' ∧ callback_answered st'.
Proof.
  revert st. induction fuel as [|fuel IH]; intros st Hfuel Hcalls Hans; [lia|].
  cbn. destruct (ps_waiting st) eqn:Hw; cbn [negb].
  - destruct (ps_error st) as [err|] eqn:Herr.
    + split_and!.
      * intros k Hk. cbn in *. by apply Hcalls.
      * intros [=].
      * intros _. cbn. rewrite existsb_app. cbn. by rewrite orb_true_r.
    + destruct (ps_seen st !! ps_j st) as [data|] eqn:Hseen.
      * rewrite width_set_no_width. apply IH.
        -- cbn. rewrite map_size_delete_Some by done.
           assert (size (ps_seen st) ≠ 0)%nat; [|lia].
           intros Hempty%map_size_empty_inv. by rewrite Hempty, lookup_empty in Hseen.
        -- intros k Hk. cbn in *.
           destruct (decide (k = ps_j st)) as [->|Hne]; [left; lia|].
           rewrite lookup_delete_ne by done.
           destruct (Hcalls k Hk) as [?|[?|[?|?]]]; [left; lia|by right; left|
             by right; right; left|by rewrite Herr in *].
        -- intros [=].
      * destruct (ps_ended st) eqn:Hended; cbn [andb].
        -- destruct (ps_last st <=? ps_j st)%nat eqn:Hlast.
           ++ split_and!.
              ** intros k Hk. cbn in *. by apply Hcalls.
              ** intros [=].
              ** intros _. cbn. rewrite existsb_app. cbn.
                 by rewrite is_final_terminal, orb_true_r.
           ++ split_and!; [done| |done]. intros _. split_and!; [done..|].
              intros _. by apply Nat.leb_gt.
        -- split_and!; [done| |done]. intros _. split_and!; [done..|].
           by rewrite Hended.
  - split_and!; [done| |done]. intros Hw'. by rewrite Hw in Hw'.
Qed.

Lemma para_live_drain_all (st : ParaState B) :
  ps_started st = true → (ps_ended st = false → ps_reading st = true) →
  calls_accounted st → callback_answered st →
  para_live (para_drain_all t true st).
Proof.
  intros Hs Hr Hcalls Hans. unfold para_drain_all.
  destruct (para_drain_frame true (S (S (size (ps_seen st)))) st)
    as (_ & _ & _ & Hs' & Hr' & He' & _).
  destruct (para_drain_live (S (S (size (ps_seen st)))) st) as (? & ? & ?);
    [lia|done..|].
  constructor; [congruence| |done..]. rewrite He', Hr'. exact Hr.
Qed.

Lemma para_live_first_pull : para_live (para_step t true Pull (para_init t)).
Proof.
  unfold para_step. cbn [para_wait para_init ps_started].
  rewrite para_start_reads by done.
  apply para_live_drain_all; cbn; try done.
  intros k Hk. cbn in Hk. lia.
Qed.

Lemma para_drain_all_frame (greedy : bool) (st : ParaState B) :
  let st' := para_drain_all t greedy st in
  ps_upstream st' = ps_upstream st ∧ ps_i st' = ps_i st
  ∧ ps_last st' = ps_last st ∧ ps_started st' = ps_started st
  ∧ ps_reading st' = ps_reading st ∧ ps_ended st' = ps_ended st
  ∧ ps_error st' = ps_error st ∧ ps_inflight st' = ps_inflight st
  ∧ ps_log st' = ps_log st.
Proof. apply para_drain_frame. Qed.

Lemma para_drain_all_live (st : ParaState B) :
  calls_accounted st → callback_answered st →
  let st' := para_drain_all t true st in
  calls_accounted st' ∧ callback_held st' ∧ callback_answered st'.
Proof. intros. apply para_drain_live; [lia|done..]. Qed.

(** The stage goes on reading after a mapper call that called back at
    once. *)
Lemma para_live_after_call (st : ParaState B) :
  calls_accounted st → callback_answered st →
  ps_ended st = false → ps_reading st = false →
  para_live (if ps_ended (para_drain_all t true st) then para_drain_all t true st
             else para_start t (para_drain_all t true) (para_drain_all t true st)).
Proof.
  intros Hcalls Hans Hended Hreading.
  destruct (para_drain_all_frame true st) as (_ & _ & _ & _ & Hr' & He' & _).
  destruct (para_drain_all_live st Hcalls Hans) as (Hc' & Hh' & Ha').
  cbn zeta in *.
  set (st' := para_drain_all t true st) in *. clearbody st'.
  rewrite He', Hended. rewrite para_start_reads by congruence.
  by constructor.
Qed.

Lemma para_live_step (ev : ParaEvent) (st : ParaState B) :
  para_safe t st → para_live st → para_live (para_step t true ev st).
Proof.
  intros Hsafe Hlive. pose proof Hlive as [Hs Hr Hcalls Hheld Hans].
  destruct ev as [| |k]; unfold para_step.
  - cbn [ps_started para_wait]. rewrite Hs.
    apply para_live_drain_all; cbn; done.
  - destruct (ps_reading st) eqn:Hreading; cbn [negb]; [|exact Hlive].
    cbn [ps_upstream para_set_reading].
    destruct (ps_upstream st) as [|c rest] eqn:Hup.
    + apply para_live_drain_all; cbn; done.
    + assert (Hended : ps_ended st = false).
      { destruct (ps_ended st) eqn:He; [|done].
        destruct (safe_ended t st Hsafe He) as [_ Hi].
        pose proof (safe_upstream t st Hsafe) as Hd. rewrite Hup, Hi in Hd.
        by rewrite drop_all in Hd. }
      destruct (call_sync c).
      * unfold para_complete. apply para_live_after_call; [| |done..].
        -- intros k Hk. cbn in *.
           destruct (decide (k = ps_i st)) as [->|Hne].
           ++ destruct (settled (call_promise c)); cbn;
                [right; left; rewrite lookup_insert_eq; by eexists|
                 right; right; right; done].
           ++ destruct (Hcalls k ltac:(lia)) as [?|[?|[?|?]]];
                [by left| |by right; right; left|].
              ** right; left. destruct (settled (call_promise c)); cbn; [|done].
                 by rewrite lookup_insert_ne.
              ** right; right; right. by destruct (settled (call_promise c)).
        -- intros Hw. cbn in *. by apply Hans.
      * cbn [ps_ended para_set_inflight para_take para_set_reading]. rewrite Hended.
        rewrite para_start_reads by done.
        constructor; cbn; try done.
        intros k Hk. cbn in *.
        destruct (decide (k = ps_i st)) as [->|Hne].
        -- right; right; left. apply elem_of_union_l. by apply elem_of_singleton.
        -- destruct (Hcalls k ltac:(lia)) as [?|[?|[?|?]]];
             [by left|by right; left| |by right; right; right].
           right; right; left. by apply elem_of_union_r.
  - case_bool_decide as Hin; [|exact Hlive].
    destruct (pending t !! k) as [c|] eqn:Hc; [|exact Hlive].
    unfold para_complete. apply para_live_drain_all; cbn; try done.
    intros k' Hk'. cbn in *.
    destruct (Hcalls k' Hk') as [?|[?|[?|?]]]; [by left| | |].
    + destruct (settled (call_promise c)); cbn; [|by right; left].
      right; left. destruct (decide (k' = k)) as [->|?];
        [rewrite lookup_insert_eq; by eexists|by rewrite lookup_insert_ne].
    + destruct (decide (k' = k)) as [->|?].
      * destruct (settled (call_promise c)); cbn;
          [right; left; rewrite lookup_insert_eq; by eexists|by right; right; right].
      * right; right; left. apply elem_of_difference. split; [done|].
        by intros ?%elem_of_singleton.
    + right; right; right. by destruct (settled (call_promise c)).
Qed.

Lemma para_live_run (sched : list ParaEvent) (st : ParaState B) :
  para_safe t st → para_live st →
  para_live (para_run t true sched st).
Proof.
  revert st. induction sched as [|ev sched IH]; intros st Hsafe Hlive; [done|].
  cbn. apply IH; [by apply para_safe_step|by apply para_live_step].
Qed.

Lemma para_start_frame (greedy : bool) (st : ParaState B) :
  let st' := para_start t (para_drain_all t greedy) st in
  ps_upstream st' = ps_upstream st ∧ ps_i st' = ps_i st
  ∧ ps_ended st' = ps_ended st ∧ ps_inflight st' = ps_inflight st
  ∧ ps_log st' = ps_log st.
Proof.
  unfold para_start. destruct (ps_ended (para_set_started st)).
  - destruct (para_drain_all_frame greedy (para_set_started st))
      as (? & ? & ? & ? & ? & ? & ? & ? & ?). done.
  - by destruct (_ || _).
Qed.

Lemma para_step_ended (greedy : bool) (ev : ParaEvent) (st : ParaState B) :
  ps_ended st = true → ps_ended (para_step t greedy ev st) = true.
Proof.
  intros Hended. destruct ev as [| |k]; unfold para_step, para_complete.
  - match goal with
    | |- ps_ended (para_drain_all t greedy ?st') = true =>
        destruct (para_drain_all_frame greedy st') as (_ & _ & _ & _ & _ & -> & _)
    end.
    cbn [ps_started para_wait]. destruct (ps_started st); [done|].
    by destruct (para_start_frame greedy (para_wait st)) as (_ & _ & -> & _).
  - destruct (ps_reading st); cbn [negb]; [|done].
    destruct (ps_upstream _) as [|c rest].
    + by destruct (para_drain_all_frame greedy
        (para_set_ended (para_set_reading false st))) as (_ & _ & _ & _ & _ & -> & _).
    + match goal with
      | |- ps_ended (if ps_ended ?st' then _ else _) = true =>
          assert (Hnext : ps_ended st' = true); [|by rewrite Hnext]
      end.
      destruct (call_sync c); [|done].
      match goal with
      | |- ps_ended (para_drain_all t greedy ?st') = true =>
          by destruct (para_drain_all_frame greedy st') as (_ & _ & _ & _ & _ & -> & _)
      end.
  - case_bool_decide; [|done]. destruct (pending t !! k); [|done].
    match goal with
    | |- ps_ended (para_drain_all t greedy ?st') = true =>
        by destruct (para_drain_all_frame greedy st') as (_ & _ & _ & _ & _ & -> & _)
    end.
Qed.

Lemma para_run_ended (greedy : bool) (sched : list ParaEvent) (st : ParaState B) :
  ps_ended st = true → ps_ended (para_run t greedy sched st) = true.
Proof.
  revert st. induction sched as [|ev sched IH]; intros st Hended; [done|].
  cbn. by apply IH, para_step_ended.
Qed.

(** Every answer of upstream is taken: the stage reads on whatever the
    number of calls in flight. *)
Lemma para_step_arrive (greedy : bool) (st : ParaState B) (c : Call B)
    (rest : list (Call B)) :
  ps_reading st = true → ps_ended st = false → ps_upstream st = c :: rest →
  let st' := para_step t greedy Arrive st in
  ps_upstream st' = rest ∧ ps_i st' = S (ps_i st)
  ∧ ps_log st' = ps_log st ++ trace (call_promise c)
  ∧ ps_reading st' = true ∧ ps_ended st' = false ∧ ps_started st' = true
  ∧ (call_sync c = false → ps_inflight st' = {[ps_i st]} ∪ ps_inflight st
       ∧ ps_answers st' = ps_answers st ∧ ps_j st' = ps_j st).
Proof.
  intros Hreading Hended Hup. unfold para_step. rewrite Hreading. cbn [negb].
  cbn [ps_upstream para_set_reading]. rewrite Hup.
  destruct (call_sync c).
  - unfold para_complete.
    match goal with
    | |- context [para_drain_all t greedy ?st0] =>
        destruct (para_drain_all_frame greedy st0)
          as (Hu' & Hi' & _ & _ & Hr' & He' & _ & _ & Hl');
        cbn zeta in *; set (st' := para_drain_all t greedy st0) in *; clearbody st'
    end.
    cbn in Hu', Hi', Hr', He', Hl'. rewrite He', Hended.
    rewrite para_start_reads by congruence. cbn.
    split_and!; try done; try congruence.
  - cbn [ps_ended para_set_inflight para_take para_set_reading]. rewrite Hended.
    rewrite para_start_reads by done. cbn. done.
Qed.

Lemma para_step_arrive_progress (st : ParaState B) :
  para_safe t st → para_live st →
  let st' := para_step t true Arrive st in
  ps_ended st' = true ∨ ps_i st' = S (ps_i st).
Proof.
  intros Hsafe Hlive. cbn zeta.
  destruct (ps_ended st) eqn:Hended; [left; by apply para_step_ended|].
  pose proof (live_reading st Hlive Hended) as Hreading.
  destruct (ps_upstream st) as [|c rest] eqn:Hup.
  - left. unfold para_step. rewrite Hreading. cbn [negb].
    cbn [ps_upstream para_set_reading]. rewrite Hup.
    by destruct (para_drain_all_frame true
      (para_set_ended (para_set_reading false st))) as (_ & _ & _ & _ & _ & -> & _).
  - right. by destruct (para_step_arrive true st c rest) as (_ & ? & _).
Qed.

Lemma para_run_arrivals (m : nat) (st : ParaState B) :
  para_safe t st → para_live st →
  let st' := para_run t true (replicate m Arrive) st in
  ps_ended st' = true ∨ ps_i st' = (ps_i st + m)%nat.
Proof.
  revert st. induction m as [|m IH]; intros st Hsafe Hlive; [right; cbn; lia|].
  cbn [replicate]. rewrite para_run_cons.
  pose proof (para_safe_step t true Arrive st Hsafe) as Hsafe'.
  pose proof (para_live_step Arrive st Hsafe Hlive) as Hlive'.
  destruct (para_step_arrive_progress st Hsafe Hlive) as [He|Hi].
  - left. by apply para_run_ended.
  - destruct (IH _ Hsafe' Hlive') as [?|Hi']; [by left|right].
    cbn zeta in *. rewrite Hi', Hi. lia.
Qed.

Lemma para_step_complete_inflight (greedy : bool) (k x : nat) (st : ParaState B) :
  para_safe t st →
  x ∈ ps_inflight (para_step t greedy (Complete k) st) →
  x ∈ ps_inflight st ∧ x ≠ k.
Proof.
  intros Hsafe. unfold para_step, para_complete.
  case_bool_decide as Hin.
  - destruct (pending t !! k) as [c|] eqn:Hc.
    + match goal with
      | |- context [para_drain_all t greedy ?st0] =>
          destruct (para_drain_all_frame greedy st0)
            as (_ & _ & _ & _ & _ & _ & _ & -> & _)
      end.
      cbn. intros [? ?%not_elem_of_singleton]%elem_of_difference. done.
    + destruct (safe_inflight t st Hsafe k Hin) as [Hk _].
      pose proof (safe_i t st Hsafe).
      apply lookup_ge_None in Hc. lia.
  - intros Hx. split; [done|]. by intros ->.
Qed.

Lemma para_run_completes (greedy : bool) (ks : list nat) (x : nat) (st : ParaState B) :
  para_safe t st →
  x ∈ ps_inflight (para_run t greedy (Complete <$> ks) st) →
  x ∈ ps_inflight st ∧ x ∉ ks.
Proof.
  revert st. induction ks as [|k ks IH]; intros st Hsafe Hx.
  - split; [done|]. by intros ?%elem_of_nil.
  - rewrite fmap_cons, para_run_cons in Hx.
    apply IH in Hx; [|by apply para_safe_step].
    destruct Hx as [Hx Hks].
    apply para_step_complete_inflight in Hx; [|done].
    destruct Hx as [Hx Hne]. split; [done|].
    intros [->|?]%elem_of_cons; done.
Qed.

Lemma para_run_app (greedy : bool) (s1 s2 : list ParaEvent) (st : ParaState B) :
  para_run t greedy (s1 ++ s2) st = para_run t greedy s2 (para_run t greedy s1 st).
Proof. apply foldl_app. Qed.

(** Under [pull.collect], once upstream has delivered everything and
    every call has called back, the stage has read to the end and no call
    is in flight. *)
Lemma para_collect_final (sched : list ParaEvent) :
  let st := para_run t true (collect_schedule t sched) (para_init t) in
  para_safe t st ∧ para_live st ∧ ps_ended st = true ∧ ∀ x, x ∉ ps_inflight st.
Proof.
  cbn zeta. unfold collect_schedule.
  change (Pull :: ?l) with ([Pull] ++ l).
  rewrite !para_run_app.
  set (st1 := para_run t true sched (para_run t true [Pull] (para_init t))).
  assert (Hsafe1 : para_safe t st1).
  { apply para_safe_run, para_safe_run, para_safe_init. }
  assert (Hlive1 : para_live st1).
  { apply para_live_run; [apply para_safe_run, para_safe_init|].
    apply para_live_first_pull. }
  set (st2 := para_run t true (replicate _ Arrive) st1).
  assert (Hsafe2 : para_safe t st2) by by apply para_safe_run.
  assert (Hlive2 : para_live st2) by by apply para_live_run.
  assert (Hended2 : ps_ended st2 = true).
  { destruct (para_run_arrivals (S (length (pending t))) st1 Hsafe1 Hlive1)
      as [?|Hi]; [done|].
    pose proof (safe_i t st2 Hsafe2) as Hle. fold st2 in Hi. lia. }
  split_and!.
  - by apply para_safe_run.
  - by apply para_live_run.
  - by apply para_run_ended.
  - intros x Hx. apply para_run_completes in Hx; [|done].
    destruct Hx as [Hx Hnot]. apply Hnot, elem_of_seq.
    destruct (safe_inflight t st2 Hsafe2 x Hx) as [? _].
    pose proof (safe_i t st2 Hsafe2). lia.
Qed.

Lemma para_live_settled (st : ParaState B) :
  para_safe t st → para_live st → ps_ended st = true →
  (∀ x, x ∉ ps_inflight st) →
  ps_waiting st = false.
Proof.
  intros Hsafe Hlive Hended Hnone.
  destruct (ps_waiting st) eqn:Hw; [|done]. exfalso.
  destruct (live_waiting st Hlive Hw) as (Herr & Hseen & Hlast).
  specialize (Hlast Hended).
  destruct (safe_ended t st Hsafe Hended) as [Hl Hi].
  destruct (live_calls st Hlive (ps_j st)) as [?|[[b Hb]|[?|?]]];
    [lia|lia|congruence|by eapply Hnone|done].
Qed.

Lemma collect_outcome_data (got ds : list B) (ts : list (Pulled B)) :
  collect_outcome got ((Data <$> ds) ++ ts) = collect_outcome (got ++ ds) ts.
Proof.
  revert got. induction ds as [|d ds IH]; intros got; cbn; [by rewrite app_nil_r|].
  by rewrite IH, <- app_assoc.
Qed.

Lemma existsb_final_data (ds : list B) : existsb is_final (Data <$> ds) = false.
Proof. by induction ds. Qed.

(** [pull.collect] on a stage without width: every mapper call is
    started, whatever the order of events; the promise resolves with the
    results of all the calls, in input order, when upstream ends normally
    and every call resolves, and is rejected otherwise, with the error of
    a call or, when every call resolved, with the error upstream ended
    with. *)
Lemma pull_collect_through_settles (sched : list ParaEvent) :
  trace (pull_collect_through sched t)
  = concat ((λ c, trace (call_promise c)) <$> pending t)
  ∧ match settled (pull_collect_through sched t) with
    | Resolved ys =>
        upstream_end t = None
        ∧ Forall2 (λ c y, settled (call_promise c) = Resolved y) (pending t) ys
    | Rejected err =>
        mapper_error t err
        ∨ (upstream_end t = Some err
           ∧ ∃ ys, Forall2 (λ c y, settled (call_promise c) = Resolved y)
                           (pending t) ys)
    end.
Proof.
  destruct (para_collect_final sched) as (Hsafe & Hlive & Hended & Hnone).
  unfold pull_collect_through, trace, settled. cbn [fst snd].
  set (st := para_run t true (collect_schedule t sched) (para_init t)) in *.
  clearbody st.
  pose proof (para_live_settled st Hsafe Hlive Hended Hnone) as Hw.
  pose proof (live_answered st Hlive Hw) as Hfin.
  destruct (safe_ended t st Hsafe Hended) as [_ Hi].
  split.
  - rewrite (safe_log t st Hsafe), Hi. by rewrite take_ge.
  - destruct (safe_answers t st Hsafe) as (ds & ts & Hans & Hds & Hts).
    rewrite Hans in Hfin |- *. rewrite collect_outcome_data. cbn [app].
    destruct ts as [|a ts].
    { by rewrite app_nil_r, existsb_final_data in Hfin. }
    inversion Hts as [|? ? Ha _]; subst.
    destruct Ha as [(err & -> & Herr & _)|[-> Hj]]; [by left|].
    rewrite Hj, take_ge in Hds by done.
    unfold para_terminal. destruct (upstream_end t) as [err|]; cbn.
    + right. split; [done|]. by exists ds.
    + done.
Qed.

Lemma para_drain_idle (greedy : bool) (fuel : nat) (st : ParaState B) :
  ps_error st = None → ps_seen st !! ps_j st = None → ps_ended st = false →
  para_drain t greedy fuel st = st.
Proof.
  intros Herr Hseen Hended. destruct fuel as [|fuel]; [done|].
  cbn [para_drain]. rewrite Herr, Hseen, Hended. by destruct (ps_waiting st).
Qed.

Lemma para_first_pull (greedy : bool) :
  para_step t greedy Pull (para_init t)
  = para_set_reading true (para_set_started (para_wait (para_init t))).
Proof.
  unfold para_step. cbn [ps_started para_wait para_init].
  rewrite para_start_reads by done.
  unfold para_drain_all. by rewrite para_drain_idle.
Qed.

Lemma para_reading_step (greedy : bool) (ev : ParaEvent) (st : ParaState B) :
  para_safe t st → para_reading st → para_reading (para_step t greedy ev st).
Proof.
  intros Hsafe Hreads. pose proof Hreads as [Hs Hr].
  destruct ev as [| |k]; unfold para_step.
  - cbn [ps_started para_wait]. rewrite Hs.
    destruct (para_drain_all_frame greedy (para_wait st))
      as (_ & _ & _ & Hs' & Hr' & He' & _).
    split; [by rewrite Hs'|]. rewrite He', Hr'. exact Hr.
  - destruct (ps_reading st) eqn:Hreading; cbn [negb]; [|exact Hreads].
    destruct (ps_ended st) eqn:Hended.
    + destruct (safe_ended t st Hsafe Hended) as [_ Hi].
      pose proof (safe_upstream t st Hsafe) as Hup.
      rewrite Hi, drop_all in Hup.
      cbn [ps_upstream para_set_reading]. rewrite Hup.
      destruct (para_drain_all_frame greedy (para_set_ended (para_set_reading false st)))
        as (_ & _ & _ & Hs' & _ & He' & _).
      split; [by rewrite Hs'|]. rewrite He'. cbn. done.
    + cbn [ps_upstream para_set_reading].
      destruct (ps_upstream st) as [|c rest] eqn:Hup.
      * destruct (para_drain_all_frame greedy (para_set_ended (para_set_reading false st)))
          as (_ & _ & _ & Hs' & _ & He' & _).
        split; [by rewrite Hs'|]. rewrite He'. cbn. done.
      * destruct (para_step_arrive greedy st c rest Hreading Hended Hup)
          as (_ & _ & _ & Hr' & He' & Hs' & _).
        unfold para_step in Hr', He', Hs'. rewrite Hreading in Hr', He', Hs'.
        cbn [negb ps_upstream para_set_reading] in Hr', He', Hs'.
        rewrite Hup in Hr', He', Hs'. by split.
  - case_bool_decide; [|exact Hreads]. destruct (pending t !! k); [|exact Hreads].
    unfold para_complete.
    match goal with
    | |- para_reading (para_drain_all t greedy ?st0) =>
        destruct (para_drain_all_frame greedy st0)
          as (_ & _ & _ & Hs' & Hr' & He' & _)
    end.
    split; [by rewrite Hs'|]. rewrite He', Hr'. exact Hr.
Qed.

Lemma para_reading_run (greedy : bool) (sched : list ParaEvent) (st : ParaState B) :
  para_safe t st → para_reading st → para_reading (para_run t greedy sched st).
Proof.
  revert st. induction sched as [|ev sched IH]; intros st Hsafe Hreads; [done|].
  rewrite para_run_cons. apply IH; [by apply para_safe_step|by apply para_reading_step].
Qed.

(** After the consumer's first pull, every element that arrives is read
    and handed to the mapper at once, whatever the number of calls in
    flight. *)
Lemma para_arrive_starts_call (greedy : bool) (sched : list ParaEvent)
    (c : Call B) (rest : list (Call B)) :
  let st := para_run t greedy (Pull :: sched) (para_init t) in
  ps_upstream st = c :: rest →
  let st' := para_step t greedy Arrive st in
  pending t !! ps_i st = Some c
  ∧ ps_i st' = S (ps_i st)
  ∧ ps_log st' = ps_log st ++ trace (call_promise c).
Proof.
  cbn zeta. intros Hup.
  set (st := para_run t greedy (Pull :: sched) (para_init t)) in *.
  assert (Hsafe : para_safe t st) by apply para_safe_run, para_safe_init.
  assert (Hreads : para_reading st).
  { unfold st. rewrite para_run_cons.
    apply para_reading_run; [apply para_safe_step, para_safe_init|].
    rewrite para_first_pull. by split. }
  assert (Hended : ps_ended st = false).
  { destruct (ps_ended st) eqn:He; [|done].
    destruct (safe_ended t st Hsafe He) as [_ Hi].
    pose proof (safe_upstream t st Hsafe) as Hd. rewrite Hup, Hi in Hd.
    by rewrite drop_all in Hd. }
  destruct Hreads as [_ Hr]. specialize (Hr Hended).
  destruct (para_step_arrive greedy st c rest Hr Hended Hup) as (_ & ? & ? & _).
  split_and!; [|done..].
  rewrite <- (Nat.add_0_r (ps_i st)), <- lookup_drop, <- (safe_upstream t st Hsafe), Hup.
  done.
Qed.

(** When no mapper call calls back at once, the calls for the first [m]
    elements are all in flight after [m] arrivals, the consumer still
    waiting for the first result. *)
Lemma para_run_eager (greedy : bool) (m : nat) :
  (m ≤ length (pending t))%nat →
  Forall (λ c, call_sync c = false) (pending t) →
  let st := para_run t greedy (Pull :: replicate m Arrive) (para_init t) in
  ps_i st = m ∧ ps_j st = 0%nat ∧ ps_answers st = []
  ∧ ps_inflight st = set_seq 0 m
  ∧ ps_log st = concat ((λ c, trace (call_promise c)) <$> take m (pending t))
  ∧ ps_upstream st = drop m (pending t)
  ∧ ps_reading st = true ∧ ps_ended st = false.
Proof.
  intros Hm Hasync. cbn zeta. induction m as [|m IH].
  - cbn [replicate]. rewrite para_run_cons, para_first_pull. cbn. done.
  - rewrite replicate_S_end, app_comm_cons, para_run_app.
    destruct IH as (Hi & Hj & Hans & Hin & Hlog & Hup & Hr & He); [lia|].
    set (st := para_run t greedy (Pull :: replicate m Arrive) (para_init t)) in *.
    destruct (lookup_lt_is_Some_2 (pending t) m) as [c Hc]; [lia|].
    rewrite (drop_S _ c) in Hup by done.
    assert (Hsync : call_sync c = false).
    { eapply (proj1 (Forall_lookup _ _) Hasync); done. }
    change (para_run t greedy [Arrive] st) with (para_step t greedy Arrive st).
    destruct (para_step_arrive greedy st c _ Hr He Hup)
      as (Hup' & Hi' & Hlog' & Hr' & He' & _ & Hasync').
    destruct (Hasync' Hsync) as (Hin' & Hans' & Hj').
    split_and!; try congruence.
    + rewrite Hin', Hi, Hin. by rewrite set_seq_S_end_union_L.
    + rewrite Hlog', Hlog, (take_S_r _ _ c) by done.
      rewrite fmap_app, concat_app. cbn. by rewrite app_nil_r.
Qed.

(** Under [pull.collect], when every mapper call resolves, the consumer
    is handed the result of every element. *)
Lemma para_collect_all_resolved (sched : list ParaEvent) (ys : list B) :
  Forall2 (λ c y, settled (call_promise c) = Resolved y) (pending t) ys →
  para_delivered (para_run t true (collect_schedule t sched) (para_init t)) = ys.
Proof.
  intros Hall.
  destruct (para_collect_final sched) as (Hsafe & Hlive & Hended & Hnone).
  set (st := para_run t true (collect_schedule t sched) (para_init t)) in *.
  clearbody st.
  pose proof (para_live_settled st Hsafe Hlive Hended Hnone) as Hw.
  pose proof (live_answered st Hlive Hw) as Hfin.
  pose proof (para_delivered_safe t st Hsafe) as Hdel.
  assert (Hj : ps_j st = length (pending t)).
  { destruct (safe_answers t st Hsafe) as (ds & ts & Hans & Hds & Hts).
    rewrite Hans in Hfin. destruct ts as [|a ts].
    { by rewrite app_nil_r, existsb_final_data in Hfin. }
    inversion Hts as [|? ? Ha _]; subst.
    destruct Ha as [(err & _ & (k & c & Hc & Hrej) & _)|[_ Hj]]; [|done].
    destruct (Forall2_lookup_l _ _ _ _ _ Hall Hc) as (y & _ & Hres). congruence. }
  rewrite Hj, take_ge in Hdel by done.
  clear -Hall Hdel. revert Hdel. generalize (para_delivered st).
  induction Hall as [|c y cs ys Hy _ IH]; intros l Hl; inversion Hl; subst; [done|].
  f_equal; [congruence|by apply IH].
Qed.

End ParaMapNoWidth.

Section ParaMapWidth.

Context {B : Type} (t : Through B) (greedy : bool).

Variable w : nat.

Hypothesis has_width : width t = Some w.
Hypothesis width_positive : w ≠ 0%nat.

Lemma para_window_start (drain : ParaState B → ParaState B) (st : ParaState B) :
  (∀ st', para_window w st' → para_window w (drain st')) →
  para_window w st → para_window w (para_start t drain st).
Proof.
  intros Hdrain Hst. unfold para_start.
  destruct (ps_ended (para_set_started st)); [by apply Hdrain|].
  destruct (ps_reading (para_set_started st)) eqn:Hr; [done|].
  unfold width_reached. rewrite has_width.
  destruct (w =? 0)%nat eqn:Hw0; [by apply Nat.eqb_eq in Hw0|]. cbn [negb andb orb].
  destruct (_ <=? _)%nat eqn:Hle; [done|].
  apply Nat.leb_gt in Hle. unfold para_window in *. cbn in *. lia.
Qed.

Lemma para_window_drain (fuel : nat) (st : ParaState B) :
  para_window w st → para_window w (para_drain t greedy fuel st).
Proof.
  revert st. induction fuel as [|fuel IH]; intros st Hst; [done|]. cbn [para_drain].
  destruct (ps_waiting st); cbn [negb]; [|done].
  destruct (ps_error st); [done|].
  destruct (ps_seen st !! ps_j st) as [data|].
  - assert (H1 : para_window w (para_hand_over data st)).
    { unfold para_window in *. cbn. lia. }
    assert (H2 : para_window w
      (if greedy then para_drain t greedy fuel (para_wait (para_hand_over data st))
       else para_hand_over data st)).
    { destruct greedy; [|done]. by apply IH. }
    cbn zeta. destruct (width_set t); [|done]. by apply para_window_start.
  - by destruct (_ && _).
Qed.

Lemma para_window_step (ev : ParaEvent) (st : ParaState B) :
  para_window w st → para_window w (para_step t greedy ev st).
Proof.
  intros Hst. destruct ev as [| |k]; unfold para_step, para_complete, para_drain_all.
  - apply para_window_drain. cbn [ps_started para_wait].
    destruct (ps_started st); [done|].
    apply para_window_start; [intros st'; apply para_window_drain|done].
  - destruct (ps_reading st) eqn:Hr; cbn [negb]; [|done].
    assert (Hread : (S (ps_i st) ≤ ps_j st + w)%nat).
    { unfold para_window in Hst. rewrite Hr in Hst. lia. }
    destruct (ps_upstream _) as [|c rest].
    + apply para_window_drain. unfold para_window. cbn. lia.
    + match goal with
      | |- para_window w (if ps_ended ?st' then _ else _) =>
          assert (Hnext : para_window w st'); [|destruct (ps_ended st'); [done|]]
      end.
      { destruct (call_sync c).
        - apply para_window_drain. unfold para_window. cbn. lia.
        - unfold para_window. cbn. lia. }
      apply para_window_start; [intros st'; apply para_window_drain|done].
  - case_bool_decide; [|done]. destruct (pending t !! k); [|done].
    apply para_window_drain. unfold para_window in *.
    by destruct (settled (call_promise _)).
Qed.

Lemma para_window_run (sched : list ParaEvent) (st : ParaState B) :
  para_window w st → para_window w (para_run t greedy sched st).
Proof.
  revert st. induction sched as [|ev sched IH]; intros st Hst; [done|].
  rewrite para_run_cons. by apply IH, para_window_step.
Qed.

(** With a width [w], at most [w] mapper calls are outstanding, whatever
    happens. *)
Lemma para_width_bound (sched : list ParaEvent) :
  (size (ps_inflight (para_run t greedy sched (para_init t))) ≤ w)%nat.
Proof.
  set (st := para_run t greedy sched (para_init t)).
  assert (Hsafe : para_safe t st) by apply para_safe_run, para_safe_init.
  assert (Hwin : para_window w st).
  { apply para_window_run. unfold para_window. cbn. lia. }
  assert (Hsub : ps_inflight st ⊆ set_seq (ps_j st) (ps_i st - ps_j st)).
  { intros k Hk. destruct (safe_inflight t st Hsafe k Hk) as [? _].
    apply elem_of_set_seq. lia. }
  apply subseteq_size in Hsub. rewrite size_set_seq in Hsub.
  unfold para_window in Hwin. destruct (ps_reading st); lia.
Qed.

End ParaMapWidth.

(** ** Properties of the query-result helpers *)

Section ExpansionModel.

Import Expansion.

Lemma value_at_undefined (path : list Step) : value_at path JUndefined = JUndefined.
Proof. induction path as [|[k|n] path IH]; [done|exact IH|done]. Qed.

(** A string has nothing inside. *)
Lemma value_at_string (path : list Step) (s id : string) :
  path ≠ [] → value_at path (JStr s) ≠ JStr id.
Proof.
  destruct path as [|[k|n] path]; [done| |]; intros _; cbn;
    by rewrite ?value_at_undefined.
Qed.

Lemma objectIds_field (fields : list (string * JsVal)) (k id : string) :
  id ∈ objectIdsForQueryResult (assoc_get k fields) →
  id ∈ objectIdsForQueryResult (JObj fields).
Proof.
  induction fields as [|[k' x] fields IH]; [done|].
  cbn [assoc_get].
  change (objectIdsForQueryResult (JObj ((k', x) :: fields)))
    with (match x with
          | JStr id => if String.eqb k' "object" then [id] else []
          | _ => objectIdsForQueryResult x
          end ++ objectIdsForQueryResult (JObj fields)).
  destruct (String.eqb k k').
  - intros H. apply elem_of_app. left. destruct x; try done.
    cbn in H. by apply elem_of_nil in H.
  - intros H. apply elem_of_app. right. by apply IH.
Qed.

Lemma objectIds_index (xs : list JsVal) (n : nat) (id : string) :
  id ∈ objectIdsForQueryResult (nth n xs JUndefined) →
  id ∈ objectIdsForQueryResult (JArr xs).
Proof.
  revert n. induction xs as [|x xs IH]; intros n.
  - destruct n; cbn; by intros ?%elem_of_nil.
  - change (objectIdsForQueryResult (JArr (x :: xs)))
      with (objectIdsForQueryResult x ++ objectIdsForQueryResult (JArr xs)).
    destruct n as [|n]; cbn [nth]; intros H; apply elem_of_app;
      [by left|right; by eapply IH].
Qed.

Lemma objectIds_object (fields : list (string * JsVal)) (id : string) :
  assoc_get "object" fields = JStr id →
  id ∈ objectIdsForQueryResult (JObj fields).
Proof.
  induction fields as [|[k' x] fields IH]; [done|].
  cbn [assoc_get].
  change (objectIdsForQueryResult (JObj ((k', x) :: fields)))
    with (match x with
          | JStr id => if String.eqb k' "object" then [id] else []
          | _ => objectIdsForQueryResult x
          end ++ objectIdsForQueryResult (JObj fields)).
  destruct (String.eqb "object" k') eqn:Hk.
  - intros ->. apply String.eqb_eq in Hk. subst k'. cbn.
    apply elem_of_cons. by left.
  - intros H. apply elem_of_app. right. by apply IH.
Qed.

(** Every object id a value holds under a property [object] is among the
    ids listed for the value. *)
Lemma referenced_id_listed (path : list Step) (v : JsVal) (id : string) :
  value_at (path ++ [Field "object"]) v = JStr id →
  id ∈ objectIdsForQueryResult v.
Proof.
  revert v. induction path as [|[k|n] path IH]; intros v Hv.
  - destruct v as [| | | |xs|fields]; try discriminate.
    cbn in Hv. by apply objectIds_object.
  - cbn [app value_at] in Hv.
    destruct v as [| | | |xs|fields];
      try (cbn in Hv; by rewrite value_at_undefined in Hv).
    cbn [get_field] in Hv. apply (objectIds_field fields k). by apply IH.
  - cbn [app value_at] in Hv.
    destruct v as [| | | |xs|fields]; try discriminate.
    apply (objectIds_index xs n). by apply IH.
Qed.

Lemma assoc_get_expand (k : string) (fields : list (string * JsVal))
    (dataObjects : list JsVal) :
  get_field k (expandQueryResult (JObj fields) dataObjects)
  = match assoc_get k fields with
    | JStr id =>
        if String.eqb k "object"
        then default (JStr id) (payload_for id dataObjects)
        else JStr id
    | x => expandQueryResult x dataObjects
    end.
Proof.
  induction fields as [|[k' x] fields IH]; [done|].
  change (get_field k (expandQueryResult (JObj ((k', x) :: fields)) dataObjects))
    with (if String.eqb k k'
          then match x with
               | JStr id =>
                   if String.eqb k' "object"
                   then default x (payload_for id dataObjects)
                   else x
               | _ => expandQueryResult x dataObjects
               end
          else get_field k (expandQueryResult (JObj fields) dataObjects)).
  cbn [assoc_get]. destruct (String.eqb k k') eqn:Hk; [|exact IH].
  apply String.eqb_eq in Hk. subst k'. by destruct x.
Qed.

(** Where a value holds an object id under a property [object], the
    expanded value holds the payload fetched for that id. *)
Lemma expandQueryResult_resolves (path : list Step) (v : JsVal)
    (dataObjects : list JsVal) (id : string) (payload : JsVal) :
  value_at (path ++ [Field "object"]) v = JStr id →
  payload_for id dataObjects = Some payload →
  value_at (path ++ [Field "object"]) (expandQueryResult v dataObjects) = payload.
Proof.
  intros Hv Hp. revert v Hv. induction path as [|[k|n] path IH]; intros v Hv.
  - destruct v as [| | | |xs|fields]; try discriminate.
    cbn [app value_at] in *. rewrite assoc_get_expand.
    cbn [get_field] in Hv. rewrite Hv. cbn. by rewrite Hp.
  - cbn [app value_at] in *.
    destruct v as [| | | |xs|fields];
      try (cbn in Hv; by rewrite value_at_undefined in Hv).
    cbn [get_field] in Hv. rewrite assoc_get_expand.
    destruct (assoc_get k fields) as [| | |s|xs|fs] eqn:Hx; try by apply IH.
    exfalso. eapply value_at_string; [|exact Hv]. by destruct path.
  - cbn [app value_at] in *.
    destruct v as [| | | |xs|fields]; try discriminate.
    pose proof (map_nth (λ x, expandQueryResult x dataObjects) xs JUndefined n) as Hn.
    cbn beta in Hn.
    change (expandQueryResult JUndefined dataObjects) with JUndefined in Hn.
    change (value_at (path ++ [Field "object"])
              (nth n (map (λ x, expandQueryResult x dataObjects) xs) JUndefined)
            = payload).
    rewrite Hn. by apply IH.
Qed.

End ExpansionModel.

(** ** Properties of the query-expansion pipeline *)

Section QueryExpansion.

Context {imports : Imports}.

(** When every mapper call resolves, each has its result. *)
Lemma all_resolved_results {A B} (fn : A → Promise B) (xs : list A) :
  (∀ x, x ∈ xs → ∃ y, settled (fn x) = Resolved y) →
  ∃ ys, Forall2 (λ x y, settled (fn x) = Resolved y) xs ys.
Proof.
  induction xs as [|x xs IH]; intros H.
  - exists []. constructor.
  - destruct (H x ltac:(left)) as [y Hy].
    destruct IH as [ys Hys]; [intros x' Hx'; apply H; by right|].
    exists (y :: ys). by constructor.
Qed.

(** A promise settles in one way. *)
Lemma resolved_results_agree {A B} (fn : A → Promise B) (xs : list A) (ys zs : list B) :
  Forall2 (λ x y, settled (fn x) = Resolved y) xs ys →
  Forall2 (λ x y, settled (fn x) = Resolved y) xs zs →
  ys = zs.
Proof.
  intros Hys. revert zs. induction Hys as [|x y xs ys Hy _ IH]; intros zs Hzs;
    inversion Hzs; subst; [done|].
  f_equal; [congruence|by apply IH].
Qed.

Lemma remoteQueryWithDataStream_resolved
    (node : MediachainNode) (peer : PeerRef) (queryString : string)
    (s : Source JsVal) :
  settled (remoteQueryStream node peer queryString) = Resolved s →
  settled (remoteQueryWithDataStream node peer queryString)
  = Resolved (paramap (expandMapper node peer) None s).
Proof.
  unfold remoteQueryWithDataStream.
  destruct (remoteQueryStream node peer queryString) as [l [s'|err]];
    cbn; [|discriminate].
  by intros [= ->].
Qed.

(** The calls of the stage are the mapper's calls for the results of the
    query, in their order. *)
Lemma expansion_calls_resolved
    (node : MediachainNode) (peer : PeerRef) (s : Source JsVal) (n : nat)
    (ys : list JsVal) :
  Forall2 (λ c y, settled (call_promise c) = Resolved y)
          (take n (pending (paramap (expandMapper node peer) None s))) ys
  ↔ Forall2 (λ x y, settled (expandElement node peer x) = Resolved y)
            (take n (items s)) ys.
Proof.
  unfold paramap. cbn [pending]. rewrite <- fmap_take. by rewrite Forall2_fmap_l.
Qed.

Lemma expansion_mapper_error
    (node : MediachainNode) (peer : PeerRef) (s : Source JsVal) (err : Error) :
  mapper_error (paramap (expandMapper node peer) None s) err
  ↔ ∃ x, x ∈ items s ∧ settled (expandElement node peer x) = Rejected err.
Proof.
  unfold mapper_error, paramap. cbn [pending]. split.
  - intros (k & c & Hc & Hrej). apply list_lookup_fmap_Some in Hc.
    destruct Hc as (x & -> & Hx). exists x. split; [|done].
    by eapply list_elem_of_lookup_2.
  - intros (x & [k Hk]%list_elem_of_lookup & Hrej).
    exists k, (expandMapper node peer x). split; [|done].
    by apply list_lookup_fmap_Some_2.
Qed.

(** A data fetch that resolves has dialed the data protocol exactly once. *)
Lemma remoteData_dials_once
    (node : MediachainNode) (peer : PeerRef) (keys : list string) (d : list JsVal) :
  settled (remoteData node peer keys) = Resolved d →
  dials_on node_data (remoteData node peer keys) = 1%nat.
Proof.
  unfold remoteData, remoteDataStream, dials_on. intros H.
  destruct (openConnection node peer node_data) as [l [conn|err]] eqn:Ho;
    [|cbn in H; discriminate].
  destruct (openConnection_resolved node peer node_data conn) as (l0 & info & Hl & Hn & Htr);
    [by rewrite Ho|].
  rewrite Ho in Htr. cbn in Htr. subst l.
  pose proof (_lookupIfNeeded_no_dial_on node peer node_data ltac:(discriminate)) as Hnone.
  rewrite Hl in Hnone. cbn in Hnone.
  run_promise. unfold pull_collect.
  destruct (ended _); cbn;
    rewrite !app_nil_r, List.filter_app, Hnone; reflexivity.
Qed.

Lemma expandElement_with_ids (node : MediachainNode) (peer : PeerRef) (q : JsVal) :
  is_nullish (get_field "value" q) = false →
  objectIdsForQueryResult (get_field "value" q) ≠ [] →
  expandElement node peer q
  = (dataResults ← remoteData node peer (objectIdsForQueryResult (get_field "value" q));
     mret (expandQueryResult (get_field "value" q) dataResults)).
Proof.
  intros Hv Hids. unfold expandElement, _expandQueryResultData. rewrite Hv.
  destruct (objectIdsForQueryResult _); [congruence|reflexivity].
Qed.

(** [remoteQueryWithData] performs the query and then whatever the
    collected stage performs. *)
Lemma remoteQueryWithData_run
    (node : MediachainNode) (peer : PeerRef) (queryString : string)
    (l : list event) (s : Source JsVal) (sched : list ParaEvent) :
  remoteQueryStream node peer queryString = (l, Resolved s) →
  remoteQueryWithData node peer queryString sched
  = (l ++ trace (pull_collect_through sched (paramap (expandMapper node peer) None s)),
     settled (pull_collect_through sched (paramap (expandMapper node peer) None s))).
Proof.
  intros H. unfold remoteQueryWithData, remoteQueryWithDataStream.
  rewrite H. run_promise.
  destruct (pull_collect_through sched (paramap (expandMapper node peer) None s))
    as [l' r]. cbn.
  by rewrite app_nil_r.
Qed.



(** C9 (amended).  The expanded stream is a [paramap] stage without
    width: after the consumer's first pull, every result of the query that
    arrives is handed to the mapper at once, its fetch started whatever
    the number of fetches outstanding, so that with [m] results arrived,
    none of them without a value, [m] fetches are outstanding before any
    has called back; the fetches may call back in any order, and the
    consumer is handed the expansions in input order all the same.  (The
    same stage built with a width [w] would keep at most [w] fetches
    outstanding.) *)
Theorem expansion_fan_out_is_unbounded
    (node : MediachainNode) (peer : PeerRef) (queryString : string)
    (upstream : Source JsVal) :
  settled (remoteQueryStream node peer queryString) = Resolved upstream →
  ∃ t,
    settled (remoteQueryWithDataStream node peer queryString) = Resolved t
    ∧ width t = None
    ∧ pending t = expandMapper node peer <$> items upstream
    ∧ (∀ greedy sched x,
         let st := para_run t greedy (Pull :: sched) (para_init t) in
         items upstream !! ps_i st = Some x →
         let st' := para_step t greedy Arrive st in
         ps_i st' = S (ps_i st)
         ∧ ps_log st' = ps_log st ++ trace (expandElement node peer x))
    ∧ (∀ greedy m,
         (m ≤ length (items upstream))%nat →
         Forall (λ x, is_nullish (get_field "value" x) = false) (items upstream) →
         let st := para_run t greedy (Pull :: replicate m Arrive) (para_init t) in
         size (ps_inflight st) = m ∧ ps_answers st = []
         ∧ ps_log st
           = concat ((λ x, trace (expandElement node peer x))
                       <$> take m (items upstream)))
    ∧ (∀ greedy sched,
         let st := para_run t greedy sched (para_init t) in
         Forall2 (λ x y, settled (expandElement node peer x) = Resolved y)
                 (take (length (para_delivered st)) (items upstream))
                 (para_delivered st))
    ∧ (∀ w greedy sched,
         w ≠ 0%nat →
         let bounded := paramap (expandMapper node peer) (Some w) upstream in
         (size (ps_inflight (para_run bounded greedy sched (para_init bounded))) ≤ w)%nat).
Proof.
  intros Hs.
  set (t := paramap (expandMapper node peer) None upstream).
  exists t. split; [by apply remoteQueryWithDataStream_resolved|].
  split; [reflexivity|]. split; [reflexivity|]. split_and!;
    [| | |intros w greedy sched Hw; by apply para_width_bound].
  - intros greedy sched x. cbn zeta. intros Hx.
    set (st := para_run t greedy (Pull :: sched) (para_init t)).
    assert (Hsafe : para_safe t st) by apply para_safe_run, para_safe_init.
    assert (Hup : ps_upstream st
                  = expandMapper node peer x :: drop (S (ps_i st)) (pending t)).
    { rewrite (safe_upstream t st Hsafe). apply drop_S.
      unfold t, paramap. cbn [pending]. by apply list_lookup_fmap_Some_2. }
    destruct (para_arrive_starts_call t eq_refl greedy sched _ _ Hup) as (_ & ? & ?).
    done.
  - intros greedy m Hm Hvalues. cbn zeta.
    destruct (para_run_eager t eq_refl greedy m) as (_ & _ & Hans & Hin & Hlog & _).
    { unfold t, paramap. cbn [pending]. by rewrite length_fmap. }
    { unfold t, paramap. cbn [pending]. apply Forall_fmap.
      eapply Forall_impl; [exact Hvalues|]. by intros x Hx. }
    split_and!; [|done|].
    + rewrite Hin. apply size_set_seq.
    + rewrite Hlog. unfold t, paramap. cbn [pending].
      by rewrite <- fmap_take, <- list_fmap_compose.
  - intros greedy sched. cbn zeta.
    set (st := para_run t greedy sched (para_init t)).
    assert (Hsafe : para_safe t st) by apply para_safe_run, para_safe_init.
    pose proof (para_delivered_safe t st Hsafe) as Hdel.
    pose proof (Forall2_length _ _ _ Hdel) as Hlen.
    rewrite length_take in Hlen.
    pose proof (safe_j t st Hsafe). pose proof (safe_i t st Hsafe).
    apply expansion_calls_resolved in Hdel.
    replace (length (para_delivered st)) with (ps_j st) by lia. exact Hdel.
Qed.

End QueryExpansion.

(** ** The properties at work on the small network *)

Section OnTheFixture.

Import Fixture.
#[local] Existing Instance Fixture.imports.

Lemma register_starts_heartbeat_on_fixture :
  let req := JObj [("info", JObj [("id", JStr "QmSe1f")])] in
  let stages := [ StRepeatedly req 300000; StAbortable mkAbortable;
                  StEncode RegisterPeer; StConn (stream dir_register);
                  StOnEnd "registration connection ended" ] in
  directory node = Some dirInfo
  ∧ register node
    = ([EvNewAbortable; EvDial dirInfo dir_register; EvPull stages], Resolved true)
  ∧ heartbeat stages (λ _, false) 5 !! 2%nat = Some (600000%N, req)
  ∧ (length (heartbeat stages (λ _, false) 5) ≤ 3)%nat.
Proof.
  destruct (register_starts_heartbeat node dirInfo (stream dir_register)
              eq_refl eq_refl) as (Hreg & Hemit & Hstop).
  split; [reflexivity|]. split; [exact Hreg|]. split.
  - apply (Hemit (λ _, false) 5%nat 2%nat); [lia|].
    intros [|[|[|j]]] Hj; [split; reflexivity..|lia].
  - apply (Hstop (λ _, false) 5%nat 3%nat). left. reflexivity.
Defined.

Lemma no_directory_configured_on_fixture :
  directory lonely = None
  ∧ register lonely
    = ([], Rejected (mkError "No known directory server, cannot register"))
  ∧ lookup lonely (IdString "QmB")
    = ([EvPeerBookGet "QmB"],
       Rejected (mkError "No known directory server, cannot lookup"))
  ∧ dials (lookup lonely (IdString "QmB")) = 0%nat.
Proof.
  destruct (no_directory_configured lonely eq_refl) as (Hreg & _ & Hlk).
  destruct (Hlk (IdString "QmB") "QmB" eq_refl eq_refl) as [Htr Hdials].
  split; [reflexivity|]. split; [exact Hreg|]. split; [exact Htr|exact Hdials].
Defined.

Lemma lookup_peer_book_hit_on_fixture :
  peerBook (p2p connected) !! "QmB" = Some peerB
  ∧ lookup connected (IdString "QmB") = ([EvPeerBookGet "QmB"], Resolved (Some peerB))
  ∧ dials (lookup connected (IdString "QmB")) = 0%nat.
Proof.
  split; [reflexivity|].
  exact (lookup_peer_book_hit connected (IdString "QmB") "QmB" peerB eq_refl eq_refl).
Defined.

Lemma lookup_absent_record_on_fixture :
  directory node = Some dirInfo
  ∧ peerBook (p2p node) !! "QmZ" = None
  ∧ lookup node (IdString "QmZ")
    = ([EvPeerBookGet "QmZ"; EvDial dirInfo dir_lookup], Resolved None).
Proof.
  split; [reflexivity|]. split; [reflexivity|].
  exact (lookup_absent_record node (IdString "QmZ") "QmZ" dirInfo (stream dir_lookup)
           (JObj []) eq_refl eq_refl eq_refl eq_refl eq_refl eq_refl).
Defined.

Lemma peer_resolution_dispatch_on_fixture :
  _lookupIfNeeded node (RefString "/ip4/127.0.0.1/tcp/9001/p2p/QmB")
  = ([], Resolved (Some peerB))
  ∧ _lookupIfNeeded node (RefString "/bad")
    = ([], Rejected (mkError "Peer id is not a valid multiaddr: invalid address"))
  ∧ _lookupIfNeeded node (RefString "QmZ") = lookup node (IdString "QmZ")
  ∧ _lookupIfNeeded node (RefString "QmZ")
    = ([EvPeerBookGet "QmZ"; EvDial dirInfo dir_lookup], Resolved None)
  ∧ openConnection node (RefString "QmZ") node_ping
    = ([EvPeerBookGet "QmZ"; EvDial dirInfo dir_lookup],
       Rejected (mkError "Unable to locate peer QmZ")).
Proof.
  destruct (peer_resolution_dispatch node) as (_ & Haddr & Hid & _ & Habsent).
  split; [exact (Haddr "/ip4/127.0.0.1/tcp/9001/p2p/QmB" eq_refl)|].
  split; [exact (Haddr "/bad" eq_refl)|].
  split; [exact (Hid "QmZ" eq_refl)|].
  split; [reflexivity|].
  exact (Habsent (RefString "QmZ") node_ping
           [EvPeerBookGet "QmZ"; EvDial dirInfo dir_lookup] eq_refl).
Defined.



(** C9 as first stated fails: no bound limits the fetches outstanding.
    A peer answers a query with four results, each with a reference; with
    the four arrived, four fetches are outstanding, four dials of the data
    protocol made, and the consumer has been handed nothing.  And so for
    every number of results. *)
Lemma expansion_fan_out_exceeds_every_bound :
  (let t := paramap (expandMapper (crowd 4) (RefPeerInfo peerB)) None
              (mkSource (replicate 4 (wrap withRef)) None) in
   let st := para_run t false (Pull :: replicate 4 Arrive) (para_init t) in
   settled (remoteQueryWithDataStream (crowd 4) (RefPeerInfo peerB) "SELECT *")
   = Resolved t
   ∧ width t = None
   ∧ size (ps_inflight st) = 4%nat
   ∧ ps_log st = replicate 4 (EvDial peerB node_data)
   ∧ ps_answers st = [])
  ∧ ∀ bound : nat,
      ∃ t,
        settled (remoteQueryWithDataStream (crowd (S bound)) (RefPeerInfo peerB)
                   "SELECT *")
        = Resolved t
        ∧ let st := para_run t false (Pull :: replicate (S bound) Arrive) (para_init t) in
          (bound < size (ps_inflight st))%nat ∧ ps_answers st = [].
Proof.
  split; [repeat split; vm_compute; reflexivity|].
  intros bound.
  set (t := paramap (expandMapper (crowd (S bound)) (RefPeerInfo peerB)) None
              (mkSource (replicate (S bound) (wrap withRef)) None)).
  exists t. split; [reflexivity|]. cbn zeta.
  destruct (para_run_eager t eq_refl false (S bound)) as (_ & _ & Hans & Hin & _).
  - unfold t, paramap. cbn [pending items]. by rewrite length_fmap, length_replicate.
  - unfold t, paramap. cbn [pending items]. rewrite fmap_replicate.
    by apply Forall_replicate.
  - rewrite Hin, size_set_seq. split; [lia|exact Hans].
Qed.

Lemma expansion_fan_out_is_unbounded_on_fixture :
  let upstream := mkSource [wrap withRef; wrap dangling; wrap withRef] None in
  settled (remoteQueryStream node (RefPeerInfo peerB) "SELECT stale")
  = Resolved upstream
  ∧ ∃ t,
      settled (remoteQueryWithDataStream node (RefPeerInfo peerB) "SELECT stale")
      = Resolved t
      ∧ width t = None
      ∧ let st := para_run t false (Pull :: replicate 3 Arrive) (para_init t) in
        size (ps_inflight st) = 3%nat ∧ ps_answers st = []
        ∧ ps_log st
          = [EvDial peerB node_data; EvDial peerB node_data; EvDial peerB node_data].
Proof.
  intros upstream.
  assert (Hup : settled (remoteQueryStream node (RefPeerInfo peerB) "SELECT stale")
                = Resolved upstream) by reflexivity.
  split; [exact Hup|].
  destruct (expansion_fan_out_is_unbounded node (RefPeerInfo peerB) "SELECT stale"
              upstream Hup) as (t & Ht & Hwidth & _ & _ & Heager & _).
  exists t. split; [exact Ht|]. split; [exact Hwidth|].
  apply (Heager false 3%nat); [cbn; lia|].
  repeat constructor.
Defined.

End OnTheFixture.

(** ** The properties that rest on the modelled helpers, at work *)

Section OnTheModelledFixture.

Import Fixture.
#[local] Existing Instance Fixture.modelled.





End OnTheModelledFixture.

(** ** Further properties of the node *)

Section NodeInvariants.

Context {imports : Imports}.


(** X2.  [lookup] reads the peer book and dials nothing but the configured
    directory on the lookup protocol, at most once. *)
Theorem lookup_dials_directory_only (node : MediachainNode) (peerId : PeerIdArg) :
  (dials (lookup node peerId) ≤ 1)%nat
  ∧ Forall (λ ev, match ev with
                  | EvPeerBookGet _ => True
                  | EvDial p proto => directory node = Some p ∧ proto = dir_lookup
                  | _ => False
                  end) (trace (lookup node peerId)).
Proof.
  unfold lookup, dials.
  destruct (lookup_peerId peerId) as [err|b58]; [cbn; split; [lia|constructor]|].
  run_promise.
  destruct (getByB58String _ _) as [_|info]; [|cbn; split; [lia|repeat constructor]].
  destruct (directory node) as [dir|]; [|cbn; split; [lia|repeat constructor]].
  run_promise.
  destruct (network _ _ _) as [err|conn]; cbn; [split; [lia|repeat constructor]|].
  pose proof (pullToPromise_trace
    (pull_map lookupResponseToPeerInfo (exchange [JObj [("id", JStr b58)]] conn))) as Htr.
  destruct (pullToPromise _) as [l [first|err]]; cbn in Htr; subst l; cbn;
    (split; [lia|repeat constructor]).
Qed.

Lemma _lookupIfNeeded_steps (node : MediachainNode) (peer : PeerRef) (proto : protocol) :
  (dials (_lookupIfNeeded node peer) ≤ 1)%nat
  ∧ Forall (resolution_step node proto) (trace (_lookupIfNeeded node peer)).
Proof.
  assert (Hlk : ∀ peerId,
    (dials (lookup node peerId) ≤ 1)%nat
    ∧ Forall (resolution_step node proto) (trace (lookup node peerId))).
  { intros peerId. destruct (lookup_dials_directory_only node peerId) as [Hn Hall].
    split; [exact Hn|]. eapply Forall_impl; [exact Hall|].
    intros [b58| |p pr|stages]; cbn; tauto. }
  destruct peer as [info|p|s]; cbn [_lookupIfNeeded].
  - split; [cbn; lia|constructor].
  - apply Hlk.
  - destruct (String.prefix "/" s); [|apply Hlk].
    destruct (inflateMultiaddr s); (split; [cbn; lia|constructor]).
Qed.


End NodeInvariants.

(** ** Properties of the one-shot calls, the collectors and [RemoteNode] *)

Section NodeCalls.

Context {imports : Imports}.

(** Whatever the order of events, [remoteQueryWithData] starts the
    mapper call of every result of the query, and settles with the
    expansions of all of them or with an error. *)
Lemma remoteQueryWithData_settles
    (node : MediachainNode) (peer : PeerRef) (queryString : string)
    (s : Source JsVal) (sched : list ParaEvent) :
  settled (remoteQueryStream node peer queryString) = Resolved s →
  trace (remoteQueryWithData node peer queryString sched)
  = trace (remoteQueryStream node peer queryString)
    ++ concat ((λ x, trace (expandElement node peer x)) <$> items s)
  ∧ match settled (remoteQueryWithData node peer queryString sched) with
    | Resolved ys =>
        ended s = None
        ∧ Forall2 (λ x y, settled (expandElement node peer x) = Resolved y)
                  (items s) ys
    | Rejected err =>
        (∃ x, x ∈ items s ∧ settled (expandElement node peer x) = Rejected err)
        ∨ (ended s = Some err
           ∧ ∃ ys, Forall2 (λ x y, settled (expandElement node peer x) = Resolved y)
                           (items s) ys)
    end.
Proof.
  intros Hs.
  destruct (remoteQueryStream node peer queryString) as [l r] eqn:Hrun.
  cbn in Hs. subst r. rewrite (remoteQueryWithData_run _ _ _ _ _ _ Hrun).
  set (t := paramap (expandMapper node peer) None s).
  destruct (pull_collect_through_settles t eq_refl sched) as [Htrace Hout].
  change (l ++ trace (pull_collect_through sched t)
          = l ++ concat ((λ x, trace (expandElement node peer x)) <$> items s)
          ∧ match settled (pull_collect_through sched t) with
            | Resolved ys =>
                ended s = None
                ∧ Forall2 (λ x y, settled (expandElement node peer x) = Resolved y)
                          (items s) ys
            | Rejected err =>
                (∃ x, x ∈ items s ∧ settled (expandElement node peer x) = Rejected err)
                ∨ (ended s = Some err
                   ∧ ∃ ys, Forall2
                             (λ x y, settled (expandElement node peer x) = Resolved y)
                             (items s) ys)
            end).
  split.
  - rewrite Htrace. unfold t, paramap. cbn [pending].
    by rewrite <- list_fmap_compose.
  - destruct (settled (pull_collect_through sched t)) as [ys|err].
    + destruct Hout as [Hend Hys]. split; [exact Hend|].
      unfold t, paramap in Hys. cbn [pending] in Hys. by apply Forall2_fmap_l in Hys.
    + destruct Hout as [Herr|[Hend [ys Hys]]].
      * left. by apply expansion_mapper_error in Herr.
      * right. split; [exact Hend|]. exists ys.
        unfold t, paramap in Hys. cbn [pending] in Hys. by apply Forall2_fmap_l in Hys.
Qed.

(** X4.  The collecting variant is all or nothing, whatever the order in
    which the results arrive and the fetches call back: it starts the
    mapper call of every result of the query, so that its transport
    actions are those of the query and of every mapper call; it resolves
    only with the expansions of all the results, in input order, the query
    stream having ended normally; it rejects with the error of a failed
    fetch, or, when every fetch resolved, with the error the query stream
    ended with, and hands out no partial list. *)
Theorem remoteQueryWithData_all_or_nothing
    (node : MediachainNode) (peer : PeerRef) (queryString : string)
    (s : Source JsVal) (sched : list ParaEvent) :
  settled (remoteQueryStream node peer queryString) = Resolved s →
  trace (remoteQueryWithData node peer queryString sched)
  ≡ₚ trace (remoteQueryStream node peer queryString)
     ++ concat ((λ x, trace (expandElement node peer x)) <$> items s)
  ∧ match settled (remoteQueryWithData node peer queryString sched) with
    | Resolved ys =>
        ended s = None
        ∧ Forall2 (λ x y, settled (expandElement node peer x) = Resolved y)
                  (items s) ys
    | Rejected err =>
        (∃ x, x ∈ items s ∧ settled (expandElement node peer x) = Rejected err)
        ∨ (ended s = Some err
           ∧ ∃ ys, Forall2 (λ x y, settled (expandElement node peer x) = Resolved y)
                           (items s) ys)
    end.
Proof.
  intros Hs.
  destruct (remoteQueryWithData_settles node peer queryString s sched Hs) as [-> Hout].
  by split.
Qed.

(** X5.  When no result of the query references an object id, the query with
    data performs the transport actions of the plain query, no more, and
    settles as it does, each result replaced by its value, whatever the
    order of events. *)
Theorem remoteQueryWithData_without_references
    (node : MediachainNode) (peer : PeerRef) (queryString : string)
    (s : Source JsVal) (sched : list ParaEvent) :
  settled (remoteQueryStream node peer queryString) = Resolved s →
  Forall (λ x, is_nullish (get_field "value" x) = false
               ∧ objectIdsForQueryResult (get_field "value" x) = []) (items s) →
  trace (remoteQueryWithData node peer queryString sched)
  = trace (remoteQuery node peer queryString)
  ∧ settled (remoteQueryWithData node peer queryString sched)
    = match settled (remoteQuery node peer queryString) with
      | Resolved results => Resolved (get_field "value" <$> results)
      | Rejected err => Rejected err
      end.
Proof.
  intros Hs Hplain.
  destruct (remoteQueryWithData_settles node peer queryString s sched Hs)
    as [Htrace Hout].
  assert (Hvalue : ∀ x, x ∈ items s →
            expandElement node peer x = ([], Resolved (get_field "value" x))).
  { intros x Hx. destruct (proj1 (Forall_forall _ _) Hplain x Hx) as [Hv Hids].
    unfold expandElement, _expandQueryResultData. by rewrite Hv, Hids. }
  assert (Hquiet : concat ((λ x, trace (expandElement node peer x)) <$> items s) = []).
  { clear -Hvalue. induction (items s) as [|x xs IH]; [done|].
    cbn. rewrite (Hvalue x) by by left. cbn. apply IH.
    intros x' Hx'. apply Hvalue. by right. }
  assert (Hvalues : ∀ ys,
            Forall2 (λ x y, settled (expandElement node peer x) = Resolved y)
                    (items s) ys →
            ys = get_field "value" <$> items s).
  { clear -Hvalue. induction (items s) as [|x xs IH]; intros ys Hys;
      inversion Hys as [|? y ? ys' Hy Hrest]; subst; [done|].
    rewrite (Hvalue x) in Hy by by left. cbn in Hy. injection Hy as <-.
    cbn. f_equal. apply IH; [|done]. intros x' Hx'. apply Hvalue. by right. }
  rewrite Htrace, Hquiet, app_nil_r. clear Htrace.
  unfold remoteQuery.
  destruct (remoteQueryStream node peer queryString) as [l r] eqn:Hrun.
  cbn in Hs. subst r. run_promise. unfold pull_collect.
  destruct (settled (remoteQueryWithData node peer queryString sched)) as [ys|err].
  - destruct Hout as [Hend Hys]. rewrite Hend. cbn. rewrite app_nil_r.
    split; [done|]. by rewrite (Hvalues ys Hys).
  - destruct Hout as [(x & Hx & Hrej)|[Hend _]].
    + rewrite (Hvalue x Hx) in Hrej. discriminate.
    + rewrite Hend. cbn. by rewrite app_nil_r.
Qed.

Lemma openConnection_peer_info
    (node : MediachainNode) (info : PeerInfo) (proto : protocol) :
  openConnection node (RefPeerInfo info) proto
  = ([EvDial info proto],
     match network (p2p node) info proto with
     | inr conn => Resolved conn
     | inl err => Rejected err
     end).
Proof. by rewrite (openConnection_located node (RefPeerInfo info) proto [] info). Qed.

Lemma expandElement_peer_info_trace
    (node : MediachainNode) (info : PeerInfo) (q : JsVal) :
  trace (expandElement node (RefPeerInfo info) q) = []
  ∨ trace (expandElement node (RefPeerInfo info) q) = [EvDial info node_data].
Proof.
  unfold expandElement, _expandQueryResultData.
  destruct (is_nullish _); [by left|].
  destruct (_ <? _)%nat; [by left|]. right.
  unfold remoteData, remoteDataStream. rewrite openConnection_peer_info.
  destruct (network _ _ _) as [err|conn]; [reflexivity|].
  run_promise. unfold pull_collect. destruct (ended _); reflexivity.
Qed.

(** X6.  A [RemoteNode] only ever talks to its fixed peer: [ping], [query] and
    [data] perform one dial of that peer on their protocol and nothing
    else (no peer-book read, no directory lookup), and [queryWithData]
    dials that peer on the query protocol first and afterwards only that
    peer, on the data protocol. *)
Theorem RemoteNode_talks_to_its_peer (r : RemoteNode.t) :
  let remote := RemoteNode.remotePeerInfo r in
  trace (RemoteNode.ping r) = [EvDial remote node_ping]
  ∧ (∀ queryString, trace (RemoteNode.query r queryString) = [EvDial remote node_query])
  ∧ (∀ keys, trace (RemoteNode.data r keys) = [EvDial remote node_data])
  ∧ (∀ queryString sched,
        ∃ rest, trace (RemoteNode.queryWithData r queryString sched)
                = EvDial remote node_query :: rest
                ∧ Forall (λ ev, ev = EvDial remote node_data) rest).
Proof.
  destruct r as [node remote]. cbn [RemoteNode.remotePeerInfo].
  unfold RemoteNode.ping, RemoteNode.query, RemoteNode.data, RemoteNode.queryWithData.
  cbn [RemoteNode.node RemoteNode.remotePeerInfo].
  split; [|split; [|split]].
  - unfold ping. rewrite openConnection_peer_info.
    destruct (network _ _ _) as [err|conn]; [reflexivity|]. run_promise.
    pose proof (pullToPromise_trace (pull_map (λ _ : JsVal, true) (exchange [JObj []] conn))) as Htr.
    destruct (pullToPromise _) as [l res]. cbn in Htr. by subst l.
  - intros queryString. unfold remoteQuery, remoteQueryStream.
    rewrite openConnection_peer_info.
    destruct (network _ _ _) as [err|conn]; [reflexivity|]. run_promise.
    unfold pull_collect. destruct (ended _); reflexivity.
  - intros keys. unfold remoteData, remoteDataStream.
    rewrite openConnection_peer_info.
    destruct (network _ _ _) as [err|conn]; [reflexivity|]. run_promise.
    unfold pull_collect. destruct (ended _); reflexivity.
  - intros queryString sched.
    destruct (remoteQueryStream node (RefPeerInfo remote) queryString) as [l res] eqn:Hrun.
    assert (Hl : l = [EvDial remote node_query]).
    { revert Hrun. unfold remoteQueryStream. rewrite openConnection_peer_info.
      destruct (network _ _ _); run_promise; by intros [= <- _]. }
    subst l. destruct res as [s|err].
    + destruct (remoteQueryWithData_settles node (RefPeerInfo remote) queryString s sched)
        as [Htrace _]; [by rewrite Hrun|].
      rewrite Htrace, Hrun. cbn [trace fst app].
      eexists. split; [reflexivity|].
      apply Forall_concat, Forall_fmap, Forall_forall. intros q _. cbn.
      destruct (expandElement_peer_info_trace node remote q) as [-> | ->];
        repeat constructor.
    + unfold remoteQueryWithData, remoteQueryWithDataStream. rewrite Hrun. cbn.
      exists []. by split.
Qed.

(** X7.  [ping] never resolves with [false]; and against a peer whose ping
    protocol is served by [pingHandler] it resolves with [true] after the
    one dial of that peer. *)
Theorem ping_answered_by_pingHandler (client : MediachainNode) :
  (∀ peer b, settled (ping client peer) = Resolved (Some b) → b = true)
  ∧ (∀ server info,
        network (p2p client) info node_ping = inr (served_by (pingHandler server)) →
        ping client (RefPeerInfo info)
        = ([EvDial info node_ping], Resolved (Some true))).
Proof.
  split.
  - intros peer b. unfold ping.
    destruct (openConnection client peer node_ping) as [l [conn|err]]; [|discriminate].
    run_promise. unfold pullToPromise, pull_map. cbn.
    destruct (items (exchange [JObj []] conn)); cbn.
    + destruct (ended _); cbn; discriminate.
    + by intros [= <-].
  - intros server info Hnet. unfold ping.
    rewrite openConnection_peer_info, Hnet. reflexivity.
Qed.

(** X8.  The identity handler answers every request, with the node's own peer
    id and the info message the node has at that time; so a peer whose
    identity protocol is served by the handler of a node whose info
    message was set to [m] is seen with its peer id and [m]. *)
Theorem remoteNodeInfo_answered_by_idHandler
    (client server : MediachainNode) (m : string) :
  let response := JObj [ ("peer", JStr (toB58String (id (peerInfo (p2p server)))));
                         ("info", JStr m) ] in
  (∀ incoming,
      items (idHandler (setInfoMessage server m) incoming)
      = replicate (length (items incoming)) response
      ∧ ended (idHandler (setInfoMessage server m) incoming) = ended incoming)
  ∧ (∀ info,
        network (p2p client) info node_id
        = inr (served_by (idHandler (setInfoMessage server m))) →
        remoteNodeInfo client (RefPeerInfo info)
        = ([EvDial info node_id], Resolved (Some response))).
Proof.
  intros response. split.
  - intros incoming. split; [|reflexivity].
    unfold idHandler, pull_map. cbn.
    induction (items incoming) as [|x xs IH]; [reflexivity|]. cbn. by f_equal.
  - intros info Hnet. unfold remoteNodeInfo.
    rewrite openConnection_peer_info, Hnet. reflexivity.
Qed.

(** X9.  [setDirectory] replaces the directory and nothing else; the next
    [register] dials the new directory, whatever the old one was.  A string
    that does not inflate makes it throw that error, the node staying as it
    was. *)
Theorem setDirectory_rebinds (node : MediachainNode) :
  (∀ dirInfo node',
      setDirectory node dirInfo = inr node' →
      ∃ info,
        match dirInfo with
        | inl given => given = info
        | inr s => inflateMultiaddr s = inr info
        end
        ∧ directory node' = Some info
        ∧ p2p node' = p2p node
        ∧ infoMessage node' = infoMessage node
        ∧ List.filter is_dial (trace (register node')) = [EvDial info dir_register])
  ∧ (∀ s err, inflateMultiaddr s = inl err → setDirectory node (inr s) = inl err).
Proof.
  assert (Hreg : ∀ info,
    List.filter is_dial
      (trace (register (mkNode (p2p node) (Some info) (infoMessage node))))
    = [EvDial info dir_register]).
  { intros info. unfold register. cbn [directory p2p]. run_promise.
    destruct (network _ _ _); reflexivity. }
  split.
  - intros [given|s] node'; cbn.
    + intros [= <-]. exists given. by repeat split.
    + destruct (inflateMultiaddr s) as [err|info]; [discriminate|].
      intros [= <-]. exists info. by repeat split.
  - intros s err H. cbn. by rewrite H.
Qed.

End NodeCalls.

(** ** Properties of the REST client *)

Section RestClientProperties.

Import Rest.

Lemma split_newline_nonempty (s : string) : split_newline s ≠ [].
Proof.
  induction s as [|c rest IH]; cbn; [discriminate|].
  destruct (Ascii.eqb c newline); [discriminate|].
  destruct (split_newline rest); discriminate.
Qed.

Lemma append_cons (c : ascii) (a b : string) :
  String c a +:+ b = String c (a +:+ b).
Proof. reflexivity. Qed.

Lemma append_empty (b : string) : "" +:+ b = b.
Proof. reflexivity. Qed.

Lemma split_newline_app (a b : string) :
  split_newline (a +:+ String newline b) = split_newline a ++ split_newline b.
Proof.
  induction a as [|c a IH]; rewrite ?append_cons, ?append_empty; cbn [split_newline].
  - reflexivity.
  - destruct (Ascii.eqb c newline); rewrite IH; [reflexivity|].
    pose proof (split_newline_nonempty a).
    destruct (split_newline a); [congruence|reflexivity].
Qed.

Lemma split_newline_single (a : string) :
  has_newline a = false → split_newline a = [a].
Proof.
  induction a as [|c a IH]; cbn; [reflexivity|].
  destruct (Ascii.eqb c newline); cbn; [discriminate|].
  intros H. by rewrite IH.
Qed.

Lemma split_newline_pieces (s : string) :
  Forall (λ piece, has_newline piece = false) (split_newline s).
Proof.
  induction s as [|c rest IH]; cbn; [by repeat constructor|].
  destruct (Ascii.eqb c newline) eqn:Hc; [by constructor|].
  destruct (split_newline rest) as [|piece more].
  - constructor; [cbn; by rewrite Hc|constructor].
  - inversion IH; subst. constructor; [|assumption]. cbn. by rewrite Hc.
Qed.

Lemma lines_app (a b : string) :
  lines (a +:+ String newline b) = lines a ++ lines b.
Proof. unfold lines. by rewrite split_newline_app, List.filter_app. Qed.

Lemma nonempty_spec (line : string) : nonempty line = true ↔ line ≠ "".
Proof. destruct line; cbn; split; intros; congruence. Qed.

(** X12.  The lines a response is split into, as [listPeers], [getDatastoreKeys]
    and [getNetAddresses] return them, are never empty and hold no line
    feed, and splitting at a line feed between two texts gives the lines
    of the one followed by the lines of the other. *)
Theorem lines_well_formed (s : string) :
  Forall (λ line, line ≠ "" ∧ has_newline line = false) (lines s)
  ∧ ∀ a b, lines (a +:+ String newline b) = lines a ++ lines b.
Proof.
  split; [|apply lines_app].
  unfold lines. apply Forall_forall. intros line Hin.
  apply list_elem_of_In, List.filter_In in Hin. destruct Hin as [Hin Hne].
  split; [by apply nonempty_spec|].
  pose proof (split_newline_pieces s) as Hall.
  rewrite Forall_forall in Hall. apply Hall. by apply list_elem_of_In.
Qed.

(** X13.  Round trip of the line format: non-empty lines free of line feeds,
    joined by line feeds, with or without a line feed at the end, are read
    back as they were. *)
Theorem lines_of_joined (ls : list string) :
  Forall (λ line, line ≠ "" ∧ has_newline line = false) ls →
  lines (String.concat (String newline "") ls) = ls
  ∧ lines (String.concat (String newline "") ls +:+ String newline "") = ls.
Proof.
  intros Hall.
  assert (Hone : ∀ line, line ≠ "" → has_newline line = false → lines line = [line]).
  { intros line Hne Hnl. unfold lines. rewrite split_newline_single by exact Hnl.
    cbn [List.filter]. by rewrite (proj2 (nonempty_spec line) Hne). }
  assert (Hjoin : lines (String.concat (String newline "") ls) = ls).
  { induction Hall as [|line ls [Hne Hnl] Hall IH]; [reflexivity|].
    cbn [String.concat]. destruct ls as [|next more]; [by apply Hone|].
    rewrite append_cons, append_empty, lines_app, IH, Hone by assumption.
    reflexivity. }
  split; [exact Hjoin|].
  rewrite lines_app, Hjoin. cbn. by rewrite app_nil_r.
Qed.

Lemma trimStart_spaces (pre s : string) :
  all_space pre = true → trimStart (pre +:+ s) = trimStart s.
Proof.
  induction pre as [|c pre IH]; rewrite ?append_cons, ?append_empty; cbn;
    [reflexivity|].
  intros [Hc Hpre]%andb_true_iff. rewrite Hc. by apply IH.
Qed.

Lemma trimEnd_all_space (post : string) : all_space post = true → trimEnd post = "".
Proof.
  induction post as [|c post IH]; cbn; [reflexivity|].
  intros [Hc Hpost]%andb_true_iff. by rewrite IH, Hc.
Qed.

Lemma trimEnd_spaces (s post : string) :
  all_space post = true → trimEnd (s +:+ post) = trimEnd s.
Proof.
  intros Hpost. induction s as [|c s IH]; rewrite ?append_cons, ?append_empty; cbn.
  - by apply trimEnd_all_space.
  - by rewrite IH.
Qed.

Lemma append_assoc (a b c : string) : (a +:+ b) +:+ c = a +:+ (b +:+ c).
Proof.
  induction a as [|x a IH]; rewrite ?append_cons, ?append_empty; [reflexivity|].
  by rewrite IH.
Qed.

Lemma prefix_append (a b : string) : String.prefix a (a +:+ b) = true.
Proof.
  induction a as [|x a IH]; rewrite ?append_cons, ?append_empty; cbn.
  - by destruct b.
  - destruct (ascii_dec x x); [exact IH|congruence].
Qed.

Lemma prefix_slash (path : string) :
  String.prefix "/" path = true → ∃ rest, path = "/" +:+ rest.
Proof.
  destruct path as [|c rest]; cbn [String.prefix]; [discriminate|].
  destruct (ascii_dec "/" c) as [<-|]; [|discriminate].
  intros _. by exists rest.
Qed.

(** X10.  The slash in front of a path is optional: with or without it the URL
    is the base, one slash and the path; and every URL the client builds
    starts with the base followed by a slash. *)
Theorem makeUrl_leading_slash_optional (client : RestClient) :
  (∀ path, String.prefix "/" path = false →
           _makeUrl client ("/" +:+ path) = _makeUrl client path
           ∧ _makeUrl client path = apiUrl client +:+ "/" +:+ path)
  ∧ (∀ path, String.prefix (apiUrl client +:+ "/") (_makeUrl client path) = true).
Proof.
  split.
  - intros path Hrel. unfold _makeUrl. rewrite Hrel.
    rewrite append_cons, append_empty. cbn [String.prefix].
    destruct (ascii_dec "/" "/"); [by destruct path|congruence].
  - intros path. unfold _makeUrl.
    destruct (String.prefix "/" path) eqn:Hp.
    + destruct (prefix_slash path Hp) as [rest ->].
      rewrite <- append_assoc. apply prefix_append.
    + rewrite <- append_assoc. apply prefix_append.
Qed.

Lemma trimStart_kept (c : ascii) (s post : string) :
  is_space c = false → trimStart (String c s +:+ post) = String c s +:+ post.
Proof. intros Hc. rewrite append_cons. cbn. by rewrite Hc. Qed.

Lemma trim_padded (pre post : string) (c : ascii) (s : string) :
  all_space pre = true → all_space post = true → is_space c = false →
  trim (pre +:+ String c s +:+ post) = trimEnd (String c s).
Proof.
  intros Hpre Hpost Hc. unfold trim.
  by rewrite trimStart_spaces, trimStart_kept, trimEnd_spaces.
Qed.

Lemma Http_map_requests {A B} (f : A → JsError + B) (p : Http A) :
  (Http_map f p).1 = p.1.
Proof. by destruct p as [l [e|a]]. Qed.

Lemma Http_catch_requests {A} (f : JsError → JsError + A) (p : Http A) :
  (Http_catch f p).1 = p.1.
Proof. by destruct p as [l [e|a]]. Qed.

Lemma validateStatus_sound (s r : string) :
  validateStatus s = inr r →
  r = trim s ∧ In r ["online"; "offline"; "public"].
Proof.
  unfold validateStatus.
  destruct (String.eqb (trim s) "online") eqn:H1;
    [|destruct (String.eqb (trim s) "offline") eqn:H2;
      [|destruct (String.eqb (trim s) "public") eqn:H3]];
    cbn; intros [= <-]; split; try reflexivity.
  - apply String.eqb_eq in H1. rewrite H1. by left.
  - apply String.eqb_eq in H2. rewrite H2. right. by left.
  - apply String.eqb_eq in H3. rewrite H3. right. right. by left.
Qed.

(** X14.  A status wrapped in white space (the line feed that ends a response,
    say) is accepted and comes back bare. *)
Theorem validateStatus_accepts_padded_status (status pre post : string) :
  In status ["online"; "offline"; "public"] →
  all_space pre = true → all_space post = true →
  validateStatus (pre +:+ status +:+ post) = inr status.
Proof.
  intros Hin Hpre Hpost. unfold validateStatus.
  destruct Hin as [<-|[<-|[<-|[]]]];
    rewrite trim_padded by (assumption || reflexivity); reflexivity.
Qed.

(** X15.  [getStatus] and [setStatus] resolve with one of the three statuses
    only, the trimmed text of the response; [setStatus] puts the status it
    is given into the path as it is, in a POST with an empty body. *)
Theorem status_calls_resolve_with_known_status
    (fetch : string → Args → JsError + FetchResponse) (client : RestClient) :
  (∀ r, (getStatus fetch client).2 = inr r → In r ["online"; "offline"; "public"])
  ∧ (∀ status,
        (setStatus fetch client status).1
        = [(apiUrl client +:+ "/status/" +:+ status,
            mkArgs (Some (requestTimeout client)) (Some "POST") (Some []) (Some ""))]
        ∧ ∀ r, (setStatus fetch client status).2 = inr r →
               In r ["online"; "offline"; "public"]).
Proof.
  split.
  - intros r. unfold getStatus, getRequest, req, Http_map. cbn.
    destruct (fetch _ _) as [err|response]; [discriminate|].
    destruct (ok response); [|discriminate].
    intros H. by destruct (validateStatus_sound _ _ H).
  - intros status. split; [unfold setStatus; by rewrite Http_map_requests|].
    intros r. unfold setStatus, postRequest, req, Http_map. cbn.
    destruct (fetch _ _) as [err|response]; [discriminate|].
    destruct (ok response); [|discriminate].
    intros H. by destruct (validateStatus_sound _ _ H).
Qed.

(** X11.  A call of [req] hands [fetch] one request, the URL made from the path
    and the arguments with the client's timeout added (a timeout among the
    arguments wins); [getRequest] and [postRequest] always send the
    client's timeout.  A response that is not ok never reaches the caller:
    the promise is rejected with a [RestError] carrying its status code. *)
Theorem req_sends_timeout_and_checks_ok
    (fetch : string → Args → JsError + FetchResponse)
    (client : RestClient) (path : string) (args : Args) :
  let url := _makeUrl client path in
  let sent := assign_timeout (requestTimeout client) args in
  (req fetch client path args).1 = [(url, sent)]
  ∧ arg_timeout sent = Some (default (requestTimeout client) (arg_timeout args))
  ∧ (getRequest fetch client path).1
    = [(url, mkArgs (Some (requestTimeout client)) None None None)]
  ∧ (∀ body, (postRequest fetch client path body).1
             = [(url, mkArgs (Some (requestTimeout client)) (Some "POST")
                             (Some []) (Some body))])
  ∧ match (req fetch client path args).2 with
    | inr response => fetch url sent = inr response ∧ ok response = true
    | inl err =>
        fetch url sent = inl err
        ∨ ∃ response,
            fetch url sent = inr response ∧ ok response = false
            ∧ err = RestError response (resp_text response)
            ∧ err_statusCode err = Some (status response)
    end.
Proof.
  intros url sent. repeat split.
  - unfold sent, assign_timeout. cbn. by destruct (arg_timeout args).
  - unfold req. cbn. fold url sent.
    destruct (fetch url sent) as [err|response]; [by left|].
    destruct (ok response) eqn:Hok; [by split|].
    right. by exists response.
Qed.

Lemma text_is_OK_padded (response : FetchResponse) (pre post : string) :
  resp_text response = pre +:+ "OK" +:+ post →
  all_space pre = true → all_space post = true →
  text_is_OK response = inr true.
Proof.
  intros Htext Hpre Hpost. unfold text_is_OK.
  by rewrite Htext, trim_padded.
Qed.

(** X16.  [authorize] posts the namespaces joined by commas to [auth/<peer id>],
    and [revokeAuthorization] is the same call with no namespace: an empty
    body.  An ok response always resolves the call (with a boolean, never
    a rejection), with [true] when its text is [OK] wrapped in white space. *)
Theorem authorize_posts_namespaces
    (fetch : string → Args → JsError + FetchResponse)
    (client : RestClient) (peerId : string) (namespaces : list string) :
  let url := apiUrl client +:+ "/auth/" +:+ peerId in
  let sent body := mkArgs (Some (requestTimeout client)) (Some "POST")
                          (Some []) (Some body) in
  (authorize fetch client peerId namespaces).1
  = [(url, sent (String.concat "," namespaces))]
  ∧ (revokeAuthorization fetch client peerId).1 = [(url, sent "")]
  ∧ (∀ response,
        fetch url (sent (String.concat "," namespaces)) = inr response →
        ok response = true →
        (authorize fetch client peerId namespaces).2 = text_is_OK response
        ∧ ∀ pre post,
            resp_text response = pre +:+ "OK" +:+ post →
            all_space pre = true → all_space post = true →
            (authorize fetch client peerId namespaces).2 = inr true).
Proof.
  intros url sent. split; [|split].
  - unfold authorize. by rewrite Http_map_requests.
  - unfold revokeAuthorization, authorize. by rewrite Http_map_requests.
  - intros response Hfetch Hok.
    assert (H : (authorize fetch client peerId namespaces).2 = text_is_OK response).
    { unfold authorize, postRequest, req, Http_map.
      change (_makeUrl client ("auth/" +:+ peerId)) with url.
      change (assign_timeout (requestTimeout client) _)
        with (sent (String.concat "," namespaces)).
      by rewrite Hfetch, Hok. }
    split; [exact H|]. intros pre post Htext Hpre Hpost.
    rewrite H. by eapply text_is_OK_padded.
Qed.

(** X17.  [shutdown] sends one POST to [shutdown] and reports success both when
    the node answers and when the socket is reset under the request; a
    response that is not ok and any other failure of the request reject the
    call with that error, unchanged.  It never resolves with [false]. *)
Theorem shutdown_tolerates_connection_reset
    (fetch : string → Args → JsError + FetchResponse) (client : RestClient) :
  let url := apiUrl client +:+ "/shutdown" in
  let sent := mkArgs (Some (requestTimeout client)) (Some "POST") (Some []) (Some "") in
  (shutdown fetch client).1 = [(url, sent)]
  ∧ (shutdown fetch client).2
    = match fetch url sent with
      | inr response =>
          if ok response then inr true
          else inl (RestError response (resp_text response))
      | inl err =>
          if bool_decide (err_errno err = Some "ECONNRESET") then inr true
          else inl err
      end.
Proof.
  intros url sent. split.
  - unfold shutdown. by rewrite Http_catch_requests, Http_map_requests.
  - unfold shutdown, postRequest, req, Http_map, Http_catch.
    change (_makeUrl client "shutdown") with url.
    change (assign_timeout (requestTimeout client) _) with sent.
    destruct (fetch url sent) as [err|response].
    + destruct (err_errno err) as [code|] eqn:Hno.
      * destruct (String.eqb code "ECONNRESET") eqn:Hc.
        -- apply String.eqb_eq in Hc. subst code.
           by rewrite bool_decide_eq_true_2.
        -- rewrite bool_decide_eq_false_2; [reflexivity|].
           intros [= ->]. by rewrite String.eqb_refl in Hc.
      * by rewrite bool_decide_eq_false_2.
    + destruct (ok response); [reflexivity|].
      by cbn.
Qed.

(** X18.  The [listPeers] command hands the client an options object without
    [apiUrl], so whatever peer URL it is given it requests the relative URL
    [/dir/list] with the default timeout; it prints the non-empty lines of
    an ok response, and otherwise nothing but the error's message, on the
    error stream. *)
Theorem listPeers_command_ignores_peer_url
    (fetch : string → Args → JsError + FetchResponse) (peerUrl : string) :
  let out := listPeers_handler fetch peerUrl in
  let sent := mkArgs (Some 15000%N) None None None in
  requests out = [("/dir/list", sent)]
  ∧ match fetch "/dir/list" sent with
    | inr response =>
        if ok response
        then stdout out = lines (resp_text response) ∧ stderr out = []
        else stdout out = []
             ∧ stderr out = [statusText response +:+ String newline ""
                             +:+ resp_text response]
    | inl err => stdout out = [] ∧ stderr out = [err_message err]
    end.
Proof.
  intros out sent. unfold out, listPeers_handler, listPeers, getRequest, req, Http_map.
  change (_makeUrl (constructor (mkOptions None None [("peerUrl", peerUrl)])) "dir/list")
    with "/dir/list".
  change (assign_timeout _ no_args) with sent.
  destruct (fetch "/dir/list" sent) as [err|response]; [by split|].
  destruct (ok response); by split.
Qed.

End RestClientProperties.

(** ** The further properties at work *)

Section NodeOnTheFixture.

Import Fixture.
#[local] Existing Instance Fixture.imports.

Lemma remoteQueryWithData_all_or_nothing_on_fixture :
  settled (remoteQueryStream node (RefPeerInfo peerB) "SELECT stale")
  = Resolved (mkSource [wrap withRef; wrap dangling; wrap withRef] None)
  ∧ trace (remoteQueryWithData node (RefPeerInfo peerB) "SELECT stale"
             [Arrive; Arrive; Complete 0])
    ≡ₚ [EvDial peerB node_query; EvDial peerB node_data; EvDial peerB node_data;
        EvDial peerB node_data]
  ∧ ∃ err,
      settled (remoteQueryWithData node (RefPeerInfo peerB) "SELECT stale"
                 [Arrive; Arrive; Complete 0])
      = Rejected err.
Proof.
  assert (Hup : settled (remoteQueryStream node (RefPeerInfo peerB) "SELECT stale")
                = Resolved (mkSource [wrap withRef; wrap dangling; wrap withRef] None))
    by reflexivity.
  split; [exact Hup|].
  destruct (remoteQueryWithData_all_or_nothing node (RefPeerInfo peerB) "SELECT stale"
              _ [Arrive; Arrive; Complete 0%nat] Hup) as [Htrace Hout].
  split; [exact Htrace|].
  destruct (settled (remoteQueryWithData node (RefPeerInfo peerB) "SELECT stale"
                       [Arrive; Arrive; Complete 0%nat])) as [ys|err];
    [|by exists err].
  destruct Hout as [_ Hys].
  inversion Hys as [|? ? ? ? _ Hrest]; subst.
  inversion Hrest as [|? ? ? ? Hdangling _]; subst.
  discriminate Hdangling.
Defined.

Lemma remoteQueryWithData_without_references_on_fixture :
  settled (remoteQuery node (RefPeerInfo peerB) "SELECT plain") = Resolved [wrap plain]
  ∧ trace (remoteQueryWithData node (RefPeerInfo peerB) "SELECT plain" [])
    = [EvDial peerB node_query]
  ∧ settled (remoteQueryWithData node (RefPeerInfo peerB) "SELECT plain" [])
    = Resolved [plain].
Proof.
  assert (Hup : settled (remoteQueryStream node (RefPeerInfo peerB) "SELECT plain")
                = Resolved (mkSource [wrap plain] None)) by reflexivity.
  destruct (remoteQueryWithData_without_references node (RefPeerInfo peerB)
              "SELECT plain" _ [] Hup) as [Htr Hres].
  { constructor; [split; reflexivity|constructor]. }
  split; [reflexivity|]. split; [exact Htr|exact Hres].
Defined.

Lemma ping_answered_by_pingHandler_on_fixture :
  ping Loopback.client (RefPeerInfo peerB)
  = ([EvDial peerB node_ping], Resolved (Some true)).
Proof.
  exact (proj2 (ping_answered_by_pingHandler Loopback.client)
           Loopback.server peerB eq_refl).
Defined.

Lemma remoteNodeInfo_answered_by_idHandler_on_fixture :
  infoMessage Loopback.server = "(aleph)"
  ∧ remoteNodeInfo Loopback.client (RefPeerInfo peerB)
    = ([EvDial peerB node_id],
       Resolved (Some (JObj [("peer", JStr "QmB"); ("info", JStr "node B, rack 4")]))).
Proof.
  split; [reflexivity|].
  exact (proj2 (remoteNodeInfo_answered_by_idHandler Loopback.client Loopback.server
                  "node B, rack 4") peerB eq_refl).
Defined.

Lemma setDirectory_rebinds_on_fixture :
  directory lonely = None
  ∧ ∃ node',
      setDirectory lonely (inr "/ip4/127.0.0.1/tcp/9001/p2p/QmB") = inr node'
      ∧ directory node' = Some peerB
      ∧ List.filter is_dial (trace (register node')) = [EvDial peerB dir_register]
      ∧ setDirectory lonely (inr "/bad") = inl (mkError "invalid address").
Proof.
  split; [reflexivity|].
  destruct (setDirectory_rebinds lonely) as [Hset Hthrow].
  destruct (Hset (inr "/ip4/127.0.0.1/tcp/9001/p2p/QmB")
              (mkNode (p2p lonely) (Some peerB) (infoMessage lonely)) eq_refl)
    as (info & Hinfo & Hdir & _ & _ & Hreg).
  injection Hinfo as <-.
  eexists. split; [reflexivity|]. split; [exact Hdir|]. split; [exact Hreg|].
  exact (Hthrow "/bad" (mkError "invalid address") eq_refl).
Defined.

End NodeOnTheFixture.

Section RestOnTheFixture.

Import Rest RestFixture.

Lemma lines_of_joined_on_fixture :
  lines ("QmA" +:+ nl +:+ "QmB") = ["QmA"; "QmB"]
  ∧ lines ("QmA" +:+ nl +:+ "QmB" +:+ nl) = ["QmA"; "QmB"].
Proof.
  destruct (lines_of_joined ["QmA"; "QmB"]) as [H1 H2].
  { repeat constructor; discriminate. }
  split; [exact H1|exact H2].
Defined.

Lemma makeUrl_leading_slash_optional_on_fixture :
  _makeUrl client "/dir/list" = _makeUrl client "dir/list"
  ∧ _makeUrl client "dir/list" = "http://localhost:9002/dir/list".
Proof.
  exact (proj1 (makeUrl_leading_slash_optional client) "dir/list" eq_refl).
Defined.

Lemma validateStatus_accepts_padded_status_on_fixture :
  validateStatus (" " +:+ "public" +:+ nl) = inr "public".
Proof.
  apply (validateStatus_accepts_padded_status "public" " " nl);
    [right; right; left; reflexivity|reflexivity|reflexivity].
Defined.

Lemma status_calls_resolve_with_known_status_on_fixture :
  (setStatus fetch client "public").2 = inr "public"
  ∧ In "public" ["online"; "offline"; "public"].
Proof.
  split; [reflexivity|].
  exact (proj2 (proj2 (status_calls_resolve_with_known_status fetch client) "public")
           "public" eq_refl).
Defined.

Lemma authorize_posts_namespaces_on_fixture :
  (authorize fetch client "QmA" ["images"; "museums"]).1
  = [("http://localhost:9002/auth/QmA",
      mkArgs (Some 15000%N) (Some "POST") (Some []) (Some "images,museums"))]
  ∧ (authorize fetch client "QmA" ["images"; "museums"]).2 = inr true.
Proof.
  destruct (authorize_posts_namespaces fetch client "QmA" ["images"; "museums"])
    as (Hreq & _ & Hok).
  split; [exact Hreq|].
  destruct (Hok (mkResponse true 200 "OK" ("OK" +:+ nl)) eq_refl eq_refl) as [_ Hpad].
  exact (Hpad "" nl eq_refl eq_refl eq_refl).
Defined.

End RestOnTheFixture.
